(** * A shallow embedding of [advanced-vector/vector.h]

    [RawMemory<T>] owns a block of raw storage; [Vector<T>] owns one
    [RawMemory<T>] and a count of live elements.  The embedding keeps the
    two classes, an explicit heap of storage blocks, and the element type's
    own operations (copy, move, default- and value-initialisation) as a
    type class, because the template is generic in [T].

    Conventions.
    - [size_t] is a [Z] in the range [0, 2^64); every arithmetic operation
      of the source on a [size_t] is written with its wrap-around ([wrap]).
    - A [T*] is [None] (the null pointer) or [Some (a, i)]: slot [i] of the
      storage block allocated at address [a].
    - A slot holds [Some x] when it holds an object of determinate value
      [x], and [None] otherwise (raw storage, a destroyed object, or an
      object whose value was never initialised).
    - [assert] is compiled out (NDEBUG); an access outside a block reads
      [None] and writes nothing.
    - Assignment to a slot stores the value whatever the slot held before.
    - Only the construction of a new element from the caller's arguments
      may throw; copies and moves of stored elements, and [operator new],
      are taken to succeed, and the byte count [n * sizeof(T)] of an
      allocation is taken not to overflow. *)

From Stdlib Require Import ZArith Lia.
From stdpp Require Import base decidable option list gmap fin_maps.

Local Open Scope Z_scope.

(** ** Element types *)

(** What the container needs to know about [T]. *)
Class Element (T : Type) := {
  (** the state a move leaves in its source *)
  moved_from : T → T;
  (** [::new (p) T;] : [None] when default-initialisation performs no
      initialisation (scalars, trivially default-constructible types) *)
  default_initialized : option T;
  (** [::new (p) T();] *)
  value_initialized : T;
  (** [std::is_nothrow_move_constructible_v<T> || !std::is_copy_constructible_v<T>] *)
  relocate_by_move : bool;
}.

(** [int]: a move is a copy, default-initialisation leaves the value
    indeterminate, value-initialisation gives zero. *)
#[export] Instance int_element : Element Z := {
  moved_from x := x;
  default_initialized := None;
  value_initialized := 0;
  relocate_by_move := true;
}.

(** [std::unique_ptr<int>]: null, or owning an [int]; a moved-from pointer
    is null; it cannot be copied. *)
Inductive unique_ptr : Type :=
  | null_ptr
  | owning (pointee : Z).

#[export] Instance unique_ptr_eq_dec : EqDecision unique_ptr.
Proof. solve_decision. Defined.

#[export] Instance unique_ptr_element : Element unique_ptr := {
  moved_from _ := null_ptr;
  default_initialized := Some null_ptr;
  value_initialized := null_ptr;
  relocate_by_move := true;
}.

(** ** [size_t] *)

Definition SIZE_BITS : Z := 64.

(** Reduction of an integer to a [size_t]. *)
Definition wrap (n : Z) : Z := n mod 2 ^ SIZE_BITS.

Definition is_size_t (n : Z) : Prop := 0 ≤ n < 2 ^ SIZE_BITS.

(** ** Pointers and the heap *)

Abbreviation addr := positive (only parsing).

(** A [T*]. *)
Abbreviation pointer := (option (positive * Z)) (only parsing).

Definition nullptr : pointer := None.

(** [p + k] *)
Definition ptr_add (p : pointer) (k : Z) : pointer :=
  match p with
  | Some (a, i) => Some (a, i + k)
  | None => None
  end.

(** [p - q], a [ptrdiff_t] *)
Definition ptr_diff (p q : pointer) : Z :=
  match p, q with
  | Some (_, i), Some (_, j) => i - j
  | _, _ => 0
  end.

(** A storage block has one slot per element; the heap maps the address of
    every live allocation to its block. *)
Abbreviation block T := (list (option T)) (only parsing).
Abbreviation heap T := (gmap positive (list (option T))) (only parsing).

(** How a call ends: it returns a value, or an exception leaves it. *)
Inductive completion (R : Type) : Type :=
  | Returned (r : R)
  | Threw.
Arguments Returned {R} r.
Arguments Threw {R}.

(** ** The two classes' data members *)

Record RawMemory : Type := {
  buffer_ : pointer;
  capacity_ : Z;
}.

Record Vector : Type := {
  data_ : RawMemory;
  size_ : Z;
}.

Section Memory.
Context {T : Type} `{Element T}.

(** [*p] *)
Definition read (h : heap T) (p : pointer) : option T :=
  match p with
  | Some (a, i) =>
      if decide (0 ≤ i) then
        match h !! a with
        | Some b => default None (b !! Z.to_nat i)
        | None => None
        end
      else None
  | None => None
  end.

(** Store into the slot [p] points to. *)
Definition write (h : heap T) (p : pointer) (s : option T) : heap T :=
  match p with
  | Some (a, i) =>
      if decide (0 ≤ i) then alter (λ b, <[Z.to_nat i := s]> b) a h else h
  | None => h
  end.

(** [::new (p) T(x)] *)
Definition construct_at (h : heap T) (p : pointer) (x : T) : heap T :=
  write h p (Some x).

(** [p->~T()] *)
Definition destroy_at (h : heap T) (p : pointer) : heap T :=
  write h p None.

(** [::new (dst) T{*src}] *)
Definition copy_construct (h : heap T) (dst src : pointer) : heap T :=
  write h dst (read h src).

(** [::new (dst) T{std::move( *src )}] *)
Definition move_construct (h : heap T) (dst src : pointer) : heap T :=
  let x := read h src in
  write (write h src (moved_from <$> x)) dst x.

(** [*dst = *src] *)
Definition copy_assign (h : heap T) (dst src : pointer) : heap T :=
  write h dst (read h src).

(** [*dst = std::move( *src )] *)
Definition move_assign (h : heap T) (dst src : pointer) : heap T :=
  let x := read h src in
  write (write h src (moved_from <$> x)) dst x.

(** [*dst = std::move(tmp)] for a local [tmp] holding [x] *)
Definition move_assign_value (h : heap T) (dst : pointer) (x : T) : heap T :=
  write h dst (Some x).

(** ** The standard algorithms the source calls *)

Fixpoint uninitialized_value_construct_loop (n : nat) (h : heap T) (first : pointer) : heap T :=
  match n with
  | O => h
  | S n' =>
      uninitialized_value_construct_loop n'
        (construct_at h first value_initialized) (ptr_add first 1)
  end.

(** [std::uninitialized_value_construct_n(first, n)] *)
Definition uninitialized_value_construct_n (h : heap T) (first : pointer) (n : Z) : heap T :=
  uninitialized_value_construct_loop (Z.to_nat n) h first.

(** [::new (p) T;] *)
Definition default_construct_at (h : heap T) (p : pointer) : heap T :=
  match default_initialized with
  | Some x => construct_at h p x
  | None => h
  end.

Fixpoint uninitialized_default_construct_loop (n : nat) (h : heap T) (first : pointer) : heap T :=
  match n with
  | O => h
  | S n' =>
      uninitialized_default_construct_loop n'
        (default_construct_at h first) (ptr_add first 1)
  end.

(** [std::uninitialized_default_construct_n(first, n)] *)
Definition uninitialized_default_construct_n (h : heap T) (first : pointer) (n : Z) : heap T :=
  uninitialized_default_construct_loop (Z.to_nat n) h first.

Fixpoint uninitialized_copy_loop (n : nat) (h : heap T) (first d_first : pointer) : heap T :=
  match n with
  | O => h
  | S n' =>
      uninitialized_copy_loop n'
        (copy_construct h d_first first) (ptr_add first 1) (ptr_add d_first 1)
  end.

(** [std::uninitialized_copy_n(first, count, d_first)] *)
Definition uninitialized_copy_n (h : heap T) (first : pointer) (count : Z) (d_first : pointer) : heap T :=
  uninitialized_copy_loop (Z.to_nat count) h first d_first.

Fixpoint uninitialized_move_loop (n : nat) (h : heap T) (first d_first : pointer) : heap T :=
  match n with
  | O => h
  | S n' =>
      uninitialized_move_loop n'
        (move_construct h d_first first) (ptr_add first 1) (ptr_add d_first 1)
  end.

(** [std::uninitialized_move_n(first, count, d_first)] *)
Definition uninitialized_move_n (h : heap T) (first : pointer) (count : Z) (d_first : pointer) : heap T :=
  uninitialized_move_loop (Z.to_nat count) h first d_first.

Fixpoint destroy_loop (n : nat) (h : heap T) (first : pointer) : heap T :=
  match n with
  | O => h
  | S n' => destroy_loop n' (destroy_at h first) (ptr_add first 1)
  end.

(** [std::destroy_n(first, n)] *)
Definition destroy_n (h : heap T) (first : pointer) (n : Z) : heap T :=
  destroy_loop (Z.to_nat n) h first.

Fixpoint move_backward_loop (n : nat) (h : heap T) (last d_last : pointer) : heap T :=
  match n with
  | O => h
  | S n' =>
      move_backward_loop n'
        (move_assign h (ptr_add d_last (-1)) (ptr_add last (-1)))
        (ptr_add last (-1)) (ptr_add d_last (-1))
  end.

(** [std::move_backward(first, last, d_last)]: with [N = last - first],
    performs [*(d_last - n) = std::move( *(last - n) )] for every positive
    [n ≤ N], so nothing when [N ≤ 0]. *)
Definition move_backward (h : heap T) (first last d_last : pointer) : heap T :=
  move_backward_loop (Z.to_nat (ptr_diff last first)) h last d_last.

(** ** [RawMemory<T>] *)

(** [RawMemory::Allocate]: [operator new] returns storage at an address
    that is not in use. *)
Definition Allocate (h : heap T) (n : Z) : heap T * pointer :=
  if decide (n ≠ 0) then
    let a := fresh (dom h) in
    (<[a := replicate (Z.to_nat n) None]> h, Some (a, 0))
  else (h, nullptr).

(** [RawMemory::Deallocate]: [operator delete]; deleting the null pointer
    does nothing. *)
Definition Deallocate (h : heap T) (buf : pointer) : heap T :=
  match buf with
  | Some (a, _) => delete a h
  | None => h
  end.

(** [RawMemory() = default] *)
Definition RawMemory_default : RawMemory :=
  {| buffer_ := nullptr; capacity_ := 0 |}.

(** [explicit RawMemory(size_t capacity)] *)
Definition RawMemory_new (h : heap T) (capacity : Z) : heap T * RawMemory :=
  let '(h', p) := Allocate h capacity in
  (h', {| buffer_ := p; capacity_ := capacity |}).

(** [RawMemory(RawMemory&& other)]: the members start at their default
    initialisers, so [Deallocate] receives the null pointer. *)
Definition RawMemory_move (h : heap T) (other : RawMemory) : heap T * RawMemory * RawMemory :=
  let h' := Deallocate h (buffer_ RawMemory_default) in
  (h', {| buffer_ := buffer_ other; capacity_ := capacity_ other |},
       {| buffer_ := nullptr; capacity_ := 0 |}).

(** [RawMemory& operator=(RawMemory&& rhs)]; the result is the pair
    ([*this], [rhs]) after the call. *)
Definition RawMemory_move_assign (this rhs : RawMemory) : RawMemory * RawMemory :=
  if decide (buffer_ this ≠ buffer_ rhs) then
    ({| buffer_ := buffer_ rhs; capacity_ := capacity_ rhs |},
     {| buffer_ := nullptr; capacity_ := 0 |})
  else (this, rhs).

(** [~RawMemory()] *)
Definition RawMemory_delete (h : heap T) (this : RawMemory) : heap T :=
  Deallocate h (buffer_ this).

(** [T* operator+(size_t offset)] *)
Definition RawMemory_plus (this : RawMemory) (offset : Z) : pointer :=
  ptr_add (buffer_ this) offset.

(** [void Swap(RawMemory& other)] *)
Definition RawMemory_Swap (this other : RawMemory) : RawMemory * RawMemory :=
  (other, this).

(** [T* GetAddress()] *)
Definition GetAddress (this : RawMemory) : pointer := buffer_ this.

End Memory.

(** ** [Vector<T>] *)

Section VectorOps.
Context {T : Type} `{Element T}.

(** [iterator begin()] *)
Definition begin (this : Vector) : pointer := GetAddress (data_ this).

(** [iterator end()] *)
Definition end_ (this : Vector) : pointer :=
  ptr_add (GetAddress (data_ this)) (size_ this).

(** [size_t Size()] *)
Definition Size (this : Vector) : Z := size_ this.

(** [size_t Capacity()] *)
Definition Capacity (this : Vector) : Z := capacity_ (data_ this).

(** [T& operator[](size_t index)], read through the reference *)
Definition at_ (h : heap T) (this : Vector) (index : Z) : option T :=
  read h (ptr_add (buffer_ (data_ this)) index).

(** The slots [0 .. Size()) in order. *)
Definition elements (h : heap T) (this : Vector) : list (option T) :=
  (λ i : nat, at_ h this (Z.of_nat i)) <$> seq 0 (Z.to_nat (size_ this)).

(** [Vector() = default] *)
Definition Vector_default : Vector :=
  {| data_ := RawMemory_default; size_ := 0 |}.

(** [explicit Vector(size_t size)] *)
Definition Vector_new (h : heap T) (size : Z) : heap T * Vector :=
  let '(h1, d) := RawMemory_new h size in
  (uninitialized_value_construct_n h1 (GetAddress d) size,
   {| data_ := d; size_ := size |}).

(** [Vector(const Vector& other)] *)
Definition Vector_copy (h : heap T) (other : Vector) : heap T * Vector :=
  let '(h1, d) := RawMemory_new h (size_ other) in
  (uninitialized_copy_n h1 (GetAddress (data_ other)) (size_ other) (GetAddress d),
   {| data_ := d; size_ := size_ other |}).

(** [Vector(Vector&& other)]; the result is ([*this], [other]). *)
Definition Vector_move (other : Vector) : Vector * Vector :=
  let '(d, od) := RawMemory_move_assign RawMemory_default (data_ other) in
  ({| data_ := d; size_ := size_ other |}, {| data_ := od; size_ := 0 |}).

(** [~Vector()], followed by the destructor of the member [data_] *)
Definition Vector_delete (h : heap T) (this : Vector) : heap T :=
  RawMemory_delete (destroy_n h (GetAddress (data_ this)) (size_ this)) (data_ this).

(** [void Reserve(size_t new_capacity)] *)
Definition Reserve (h : heap T) (this : Vector) (new_capacity : Z) : heap T * Vector :=
  if decide (new_capacity ≤ capacity_ (data_ this)) then (h, this)
  else
    let '(h1, new_data) := RawMemory_new h new_capacity in
    let h2 :=
      if relocate_by_move
      then uninitialized_move_n h1 (GetAddress (data_ this)) (size_ this) (GetAddress new_data)
      else uninitialized_copy_n h1 (GetAddress (data_ this)) (size_ this) (GetAddress new_data) in
    let h3 := destroy_n h2 (GetAddress (data_ this)) (size_ this) in
    let '(d, old) := RawMemory_Swap (data_ this) new_data in
    (RawMemory_delete h3 old, {| data_ := d; size_ := size_ this |}).

(** [void Resize(size_t new_size)] *)
Definition Resize (h : heap T) (this : Vector) (new_size : Z) : heap T * Vector :=
  if decide (new_size < size_ this) then
    (destroy_n h (ptr_add (GetAddress (data_ this)) new_size)
       (wrap (size_ this - new_size)),
     {| data_ := data_ this; size_ := new_size |})
  else
    let '(h1, v1) := Reserve h this new_size in
    (uninitialized_default_construct_n h1
       (ptr_add (GetAddress (data_ v1)) (size_ v1)) (wrap (new_size - size_ v1)),
     {| data_ := data_ v1; size_ := new_size |}).

(** The capacity a full array grows to: [size_ == 0 ? 1 : size_ * 2]. *)
Definition grown_capacity (size : Z) : Z :=
  if decide (size = 0) then 1 else wrap (size * 2).

(** [template<typename... Args> T& EmplaceBack(Args&&... args)].
    [c] is the outcome of running [T]'s constructor on [args]: [Some x]
    when it builds [x], [None] when it throws.  On success the reference
    returned is given as a pointer. *)
Definition EmplaceBack (h : heap T) (this : Vector) (c : option T)
    : heap T * Vector * completion pointer :=
  if decide (size_ this = Capacity this) then
    let '(h1, relocated_v) := RawMemory_new h (grown_capacity (size_ this)) in
    match c with
    | None => (RawMemory_delete h1 relocated_v, this, Threw)
    | Some x =>
        let h2 := construct_at h1 (RawMemory_plus relocated_v (size_ this)) x in
        let h3 :=
          if relocate_by_move
          then uninitialized_move_n h2 (GetAddress (data_ this)) (size_ this) (GetAddress relocated_v)
          else uninitialized_copy_n h2 (GetAddress (data_ this)) (size_ this) (GetAddress relocated_v) in
        let '(d, old) := RawMemory_Swap (data_ this) relocated_v in
        let h4 := destroy_n h3 (GetAddress old) (capacity_ old) in
        let size' := wrap (size_ this + 1) in
        (RawMemory_delete h4 old, {| data_ := d; size_ := size' |},
         Returned (ptr_add (buffer_ d) (wrap (size' - 1))))
    end
  else
    match c with
    | None => (h, this, Threw)
    | Some x =>
        let size' := wrap (size_ this + 1) in
        (construct_at h (RawMemory_plus (data_ this) (size_ this)) x,
         {| data_ := data_ this; size_ := size' |},
         Returned (ptr_add (buffer_ (data_ this)) (wrap (size' - 1))))
    end.

(** [template<typename S> void PushBack(S&& value)]: the same body as
    [EmplaceBack], written out again in the source, returning nothing. *)
Definition PushBack (h : heap T) (this : Vector) (c : option T)
    : heap T * Vector * completion unit :=
  if decide (size_ this = Capacity this) then
    let '(h1, relocated_v) := RawMemory_new h (grown_capacity (size_ this)) in
    match c with
    | None => (RawMemory_delete h1 relocated_v, this, Threw)
    | Some x =>
        let h2 := construct_at h1 (RawMemory_plus relocated_v (size_ this)) x in
        let h3 :=
          if relocate_by_move
          then uninitialized_move_n h2 (GetAddress (data_ this)) (size_ this) (GetAddress relocated_v)
          else uninitialized_copy_n h2 (GetAddress (data_ this)) (size_ this) (GetAddress relocated_v) in
        let '(d, old) := RawMemory_Swap (data_ this) relocated_v in
        let h4 := destroy_n h3 (GetAddress old) (capacity_ old) in
        (RawMemory_delete h4 old, {| data_ := d; size_ := wrap (size_ this + 1) |},
         Returned tt)
    end
  else
    match c with
    | None => (h, this, Threw)
    | Some x =>
        (construct_at h (RawMemory_plus (data_ this) (size_ this)) x,
         {| data_ := data_ this; size_ := wrap (size_ this + 1) |},
         Returned tt)
    end.

(** [void PushBack(const T& value)] and [void PushBack(T&& value)]: both
    forward to [EmplaceBack] and drop the reference. *)
Definition PushBack_value (h : heap T) (this : Vector) (c : option T)
    : heap T * Vector * completion unit :=
  let '(h', v', r) := EmplaceBack h this c in
  (h', v', match r with Returned _ => Returned tt | Threw => Threw end).

(** [template <typename... Args> iterator Emplace(const_iterator pos, Args&&... args)],
    with [c] the outcome of [T]'s constructor on [args] as in [EmplaceBack]. *)
Definition Emplace (h : heap T) (this : Vector) (pos : pointer) (c : option T)
    : heap T * Vector * completion pointer :=
  let distance := wrap (ptr_diff pos (begin this)) in
  if decide (size_ this = Capacity this) then
    let '(h1, relocated_v) := RawMemory_new h (grown_capacity (size_ this)) in
    match c with
    | None => (RawMemory_delete h1 relocated_v, this, Threw)
    | Some x =>
        let h2 := construct_at h1 (RawMemory_plus relocated_v distance) x in
        let h3 :=
          if relocate_by_move then
            let h' :=
              uninitialized_move_n h2 (GetAddress (data_ this))
                (ptr_diff pos (begin this)) (GetAddress relocated_v) in
            uninitialized_move_n h' (ptr_add (GetAddress (data_ this)) distance)
              (ptr_diff (end_ this) pos)
              (ptr_add (ptr_add (GetAddress relocated_v) distance) 1)
          else
            let h' :=
              uninitialized_copy_n h2 (GetAddress (data_ this))
                (ptr_diff pos (begin this)) (GetAddress relocated_v) in
            uninitialized_copy_n h' (ptr_add (GetAddress (data_ this)) distance)
              (ptr_diff (end_ this) pos)
              (ptr_add (ptr_add (GetAddress relocated_v) distance) 1) in
        let '(d, old) := RawMemory_Swap (data_ this) relocated_v in
        let h4 := destroy_n h3 (GetAddress old) (capacity_ old) in
        let this' := {| data_ := d; size_ := wrap (size_ this + 1) |} in
        (RawMemory_delete h4 old, this', Returned (ptr_add (begin this') distance))
    end
  else if decide (size_ this ≠ 0) then
    match c with
    | None => (h, this, Threw)
    | Some tmp_var =>
        let h1 := move_construct h (end_ this) (ptr_add (end_ this) (-1)) in
        let h2 :=
          move_backward h1 (ptr_add (begin this) distance)
            (ptr_add (end_ this) (-1)) (end_ this) in
        let h3 := move_assign_value h2 (ptr_add (buffer_ (data_ this)) distance) tmp_var in
        let this' := {| data_ := data_ this; size_ := wrap (size_ this + 1) |} in
        (h3, this', Returned (ptr_add (begin this') distance))
    end
  else
    match c with
    | None => (h, this, Threw)
    | Some x =>
        let this' := {| data_ := data_ this; size_ := wrap (size_ this + 1) |} in
        (construct_at h (GetAddress (data_ this)) x, this',
         Returned (ptr_add (begin this') distance))
    end.

(** [iterator Insert(const_iterator pos, const T& value)] and
    [iterator Insert(const_iterator pos, T&& value)] *)
Definition Insert (h : heap T) (this : Vector) (pos : pointer) (c : option T)
    : heap T * Vector * completion pointer :=
  Emplace h this pos c.

(** The loop of [Erase]: [while (it2 != end()) { *it1 = std::move( *it2 ); ++it1; ++it2; }].
    [fuel] bounds the number of iterations. *)
Fixpoint Erase_loop (fuel : nat) (h : heap T) (it1 it2 end' : pointer) : heap T :=
  match fuel with
  | O => h
  | S fuel' =>
      if decide (it2 ≠ end') then
        Erase_loop fuel' (move_assign h it1 it2) (ptr_add it1 1) (ptr_add it2 1) end'
      else h
  end.

(** [iterator Erase(const_iterator pos)].  The loop runs at most [size_]
    times when [pos] is in [begin(), end()). *)
Definition Erase (h : heap T) (this : Vector) (pos : pointer)
    : heap T * Vector * pointer :=
  let h1 := destroy_at h pos in
  let distance := wrap (ptr_diff pos (begin this)) in
  let it1 := ptr_add (begin this) distance in
  let it2 := ptr_add (ptr_add (begin this) distance) 1 in
  let h2 := Erase_loop (Z.to_nat (size_ this)) h1 it1 it2 (end_ this) in
  let this' := {| data_ := data_ this; size_ := wrap (size_ this - 1) |} in
  (h2, this', ptr_add (begin this') distance).

(** [void PopBack()] *)
Definition PopBack (h : heap T) (this : Vector) : heap T * Vector :=
  let size' := wrap (size_ this - 1) in
  (destroy_n h (RawMemory_plus (data_ this) size') 1,
   {| data_ := data_ this; size_ := size' |}).

(** [void Swap(Vector& other)]; the result is ([*this], [other]). *)
Definition Swap (this other : Vector) : Vector * Vector :=
  let '(d, od) := RawMemory_Swap (data_ this) (data_ other) in
  ({| data_ := d; size_ := size_ other |}, {| data_ := od; size_ := size_ this |}).

Fixpoint copy_assign_loop (n : nat) (h : heap T) (dst src : pointer) : heap T :=
  match n with
  | O => h
  | S n' => copy_assign_loop n' (copy_assign h dst src) (ptr_add dst 1) (ptr_add src 1)
  end.

(** [for (; i < bound; ++i) data_[i] = rhs.data_[i];] starting at [i = 0] *)
Definition copy_assign_prefix (h : heap T) (this rhs : Vector) (bound : Z) : heap T :=
  copy_assign_loop (Z.to_nat bound) h (GetAddress (data_ this)) (GetAddress (data_ rhs)).

(** The body of [Vector& operator=(const Vector& rhs)] under
    [if (this != &rhs)]: [this] and [rhs] are two objects. *)
Definition copy_assign_from (h : heap T) (this rhs : Vector) : heap T * Vector :=
  if decide (size_ rhs > capacity_ (data_ this)) then
    let '(h1, rhs_copy) := Vector_copy h rhs in
    let '(this', rhs_copy') := Swap this rhs_copy in
    (Vector_delete h1 rhs_copy', this')
  else
    let h1 :=
      if decide (size_ this > size_ rhs) then
        let h' := copy_assign_prefix h this rhs (size_ rhs) in
        destroy_n h' (ptr_add (GetAddress (data_ this)) (size_ rhs))
          (wrap (size_ this - size_ rhs))
      else
        let h' := copy_assign_prefix h this rhs (size_ this) in
        if decide (size_ rhs > size_ this) then
          uninitialized_copy_n h' (ptr_add (GetAddress (data_ rhs)) (size_ this))
            (wrap (size_ rhs - size_ this))
            (ptr_add (GetAddress (data_ this)) (size_ this))
        else h' in
    (h1, {| data_ := data_ this; size_ := size_ rhs |}).

(** [Vector& operator=(Vector&& rhs)]; the result is ([*this], [rhs]).
    No storage is touched: the heap is left as it is. *)
Definition move_assign_from (this rhs : Vector) : Vector * Vector :=
  if decide (GetAddress (data_ this) ≠ GetAddress (data_ rhs)) then
    let '(d, rd) := RawMemory_move_assign (data_ this) (data_ rhs) in
    ({| data_ := d; size_ := size_ rhs |}, {| data_ := rd; size_ := 0 |})
  else (this, rhs).

End VectorOps.

(** ** Programs over named [Vector] objects

    [operator=(const Vector&)] compares the addresses of its two operands,
    so the objects themselves need an identity: a machine state holds the
    heap and the [Vector] objects by name. *)

Record machine (T : Type) : Type := {
  storage : heap T;
  objects : gmap positive Vector;
}.
Arguments storage {T} m.
Arguments objects {T} m.

Section Machine.
Context {T : Type} `{Element T}.

(** [this = rhs] for the objects named [this] and [rhs]:
    [Vector& operator=(const Vector& rhs)] *)
Definition assign_copy (m : machine T) (this rhs : positive) : machine T :=
  if decide (this ≠ rhs) then
    match objects m !! this, objects m !! rhs with
    | Some vt, Some vr =>
        let '(h', vt') := copy_assign_from (storage m) vt vr in
        {| storage := h'; objects := <[this := vt']> (objects m) |}
    | _, _ => m
    end
  else m.

(** [this = std::move(rhs)]: [Vector& operator=(Vector&& rhs)] *)
Definition assign_move (m : machine T) (this rhs : positive) : machine T :=
  match objects m !! this, objects m !! rhs with
  | Some vt, Some vr =>
      let '(vt', vr') := move_assign_from vt vr in
      {| storage := storage m;
         objects := <[this := vt']> (<[rhs := vr']> (objects m)) |}
  | _, _ => m
  end.

(** [this.Swap(other)] *)
Definition swap_objects (m : machine T) (this other : positive) : machine T :=
  match objects m !! this, objects m !! other with
  | Some vt, Some vo =>
      let '(vt', vo') := Swap vt vo in
      {| storage := storage m;
         objects := <[this := vt']> (<[other := vo']> (objects m)) |}
  | _, _ => m
  end.

(** A member function that works on [*this] alone. *)
Definition on_object (m : machine T) (this : positive)
    (f : heap T → Vector → heap T * Vector) : machine T :=
  match objects m !! this with
  | Some v =>
      let '(h', v') := f (storage m) v in
      {| storage := h'; objects := <[this := v']> (objects m) |}
  | None => m
  end.

(** The public operations of [Vector], each on the object named [this]. *)
Inductive operation : Type :=
  | op_default_construct (this : positive)
  | op_construct (this : positive) (size : Z)
  | op_copy_construct (this other : positive)
  | op_move_construct (this other : positive)
  | op_PushBack (this : positive) (c : option T)
  | op_PushBack_value (this : positive) (c : option T)
  | op_EmplaceBack (this : positive) (c : option T)
  | op_Emplace (this : positive) (pos : pointer) (c : option T)
  | op_Insert (this : positive) (pos : pointer) (c : option T)
  | op_Erase (this : positive) (pos : pointer)
  | op_PopBack (this : positive)
  | op_Resize (this : positive) (new_size : Z)
  | op_Reserve (this : positive) (new_capacity : Z)
  | op_copy_assign (this rhs : positive)
  | op_move_assign (this rhs : positive)
  | op_Swap (this other : positive).

(** The machine after one operation. *)
Definition step (o : operation) (m : machine T) : machine T :=
  match o with
  | op_default_construct this =>
      {| storage := storage m; objects := <[this := Vector_default]> (objects m) |}
  | op_construct this size =>
      let '(h', v) := Vector_new (storage m) size in
      {| storage := h'; objects := <[this := v]> (objects m) |}
  | op_copy_construct this other =>
      match objects m !! other with
      | Some vo =>
          let '(h', v) := Vector_copy (storage m) vo in
          {| storage := h'; objects := <[this := v]> (objects m) |}
      | None => m
      end
  | op_move_construct this other =>
      match objects m !! other with
      | Some vo =>
          let '(v, vo') := Vector_move vo in
          {| storage := storage m;
             objects := <[this := v]> (<[other := vo']> (objects m)) |}
      | None => m
      end
  | op_PushBack this c => on_object m this (λ h v, (PushBack h v c).1)
  | op_PushBack_value this c => on_object m this (λ h v, (PushBack_value h v c).1)
  | op_EmplaceBack this c => on_object m this (λ h v, (EmplaceBack h v c).1)
  | op_Emplace this pos c => on_object m this (λ h v, (Emplace h v pos c).1)
  | op_Insert this pos c => on_object m this (λ h v, (Insert h v pos c).1)
  | op_Erase this pos => on_object m this (λ h v, (Erase h v pos).1)
  | op_PopBack this => on_object m this PopBack
  | op_Resize this new_size => on_object m this (λ h v, Resize h v new_size)
  | op_Reserve this new_capacity => on_object m this (λ h v, Reserve h v new_capacity)
  | op_copy_assign this rhs => assign_copy m this rhs
  | op_move_assign this rhs => assign_move m this rhs
  | op_Swap this other => swap_objects m this other
  end.

(** What the caller owes an operation: arguments of type [size_t] are in
    range, an array that grows has fewer than [2^63] elements, and [Erase]
    and [PopBack] are called on a non-empty array. *)
Definition in_contract (o : operation) (m : machine T) : Prop :=
  match o with
  | op_construct _ n | op_Resize _ n | op_Reserve _ n => is_size_t n
  | op_PushBack this _ | op_PushBack_value this _ | op_EmplaceBack this _
  | op_Emplace this _ _ | op_Insert this _ _ =>
      ∀ v, objects m !! this = Some v → size_ v < 2 ^ (SIZE_BITS - 1)
  | op_Erase this _ | op_PopBack this =>
      ∀ v, objects m !! this = Some v → 0 < size_ v
  | _ => True
  end.

End Machine.

(** ** Well-formed states *)

Section Shape.
Context {T : Type} `{Element T}.

(** The block a pointer points into. *)
Definition blk (p : pointer) : option positive := fst <$> p.

(** The number of slots of the allocation at [a], if there is one. *)
Definition block_size (h : heap T) (a : positive) : option nat :=
  length <$> h !! a.

(** [p] points to a slot of a live allocation. *)
Definition valid (h : heap T) (p : pointer) : Prop :=
  match p with
  | Some (a, i) => ∃ n, block_size h a = Some n ∧ 0 ≤ i < Z.of_nat n
  | None => False
  end.

(** The class invariant of [Vector] that the spec names, with the range
    of the two [size_t] members. *)
Definition invariant (v : Vector) : Prop :=
  0 ≤ size_ v ≤ capacity_ (data_ v) ∧ capacity_ (data_ v) < 2 ^ SIZE_BITS.

(** [v] owns its storage in [h]: the invariant holds, a null buffer has
    capacity zero, and a non-null buffer is the start of a live allocation
    of [capacity_] slots. *)
Definition wf (h : heap T) (v : Vector) : Prop :=
  invariant v ∧
  match buffer_ (data_ v) with
  | Some (a, o) => o = 0 ∧ block_size h a = Some (Z.to_nat (capacity_ (data_ v)))
  | None => capacity_ (data_ v) = 0
  end.

(** The invariant as the two classes keep it: [RawMemory] pairs the null
    address with capacity zero. *)
Definition rep_ok (v : Vector) : Prop :=
  invariant v ∧ (buffer_ (data_ v) = nullptr → capacity_ (data_ v) = 0).

(** Every object of the machine satisfies the invariant. *)
Definition machine_ok (m : machine T) : Prop :=
  ∀ n v, objects m !! n = Some v → rep_ok v.

(** Two arrays that do not share a buffer. *)
Definition separate (v w : Vector) : Prop :=
  match buffer_ (data_ v), buffer_ (data_ w) with
  | Some (a, _), Some (b, _) => a ≠ b
  | _, _ => True
  end.

End Shape.

(** ** Sequences of appends *)

(** One call that appends [x]: the entry points of the source. *)
Inductive append_call (T : Type) : Type :=
  | via_PushBack (x : T)          (* the template PushBack(S&&) *)
  | via_PushBack_value (x : T)    (* PushBack(const T&), PushBack(T&&) *)
  | via_EmplaceBack (x : T).      (* EmplaceBack(args...) building x *)
Arguments via_PushBack {T} x.
Arguments via_PushBack_value {T} x.
Arguments via_EmplaceBack {T} x.

Section Runs.
Context {T : Type} `{Element T}.

(** The value a call appends. *)
Definition appended (c : append_call T) : T :=
  match c with
  | via_PushBack x | via_PushBack_value x | via_EmplaceBack x => x
  end.

(** The heap and the array after one append. *)
Definition run_append (st : heap T * Vector) (c : append_call T) : heap T * Vector :=
  match c with
  | via_PushBack x => (PushBack st.1 st.2 (Some x)).1
  | via_PushBack_value x => (PushBack_value st.1 st.2 (Some x)).1
  | via_EmplaceBack x => (EmplaceBack st.1 st.2 (Some x)).1
  end.

(** The heap and the array after a sequence of appends, first to last. *)
Definition run_appends (st : heap T * Vector) (cs : list (append_call T)) : heap T * Vector :=
  foldl run_append st cs.

End Runs.

(** ** Runs of mutating calls on one array *)

(** A call that changes the array; positions are offsets from [begin()]. *)
Inductive mutation (T : Type) : Type :=
  | do_PushBack (x : T)
  | do_EmplaceBack (x : T)
  | do_Insert (d : Z) (x : T)
  | do_Erase (d : Z)
  | do_PopBack
  | do_Resize (new_size : Z)
  | do_Reserve (new_capacity : Z).
Arguments do_PushBack {T} x.
Arguments do_EmplaceBack {T} x.
Arguments do_Insert {T} d x.
Arguments do_Erase {T} d.
Arguments do_PopBack {T}.
Arguments do_Resize {T} new_size.
Arguments do_Reserve {T} new_capacity.

Section Mutations.
Context {T : Type} `{Element T}.

(** The heap and the array after the call. *)
Definition mutate (st : heap T * Vector) (mu : mutation T) : heap T * Vector :=
  match mu with
  | do_PushBack x => (PushBack st.1 st.2 (Some x)).1
  | do_EmplaceBack x => (EmplaceBack st.1 st.2 (Some x)).1
  | do_Insert d x => (Insert st.1 st.2 (ptr_add (begin st.2) d) (Some x)).1
  | do_Erase d => (Erase st.1 st.2 (ptr_add (begin st.2) d)).1
  | do_PopBack => PopBack st.1 st.2
  | do_Resize n => Resize st.1 st.2 n
  | do_Reserve n => Reserve st.1 st.2 n
  end.



(** What a call may do to storage: blocks other than the array's old and
    new buffer are as they were, and either the buffer is kept, or the new
    buffer was not in use before and the old one is released. *)
Definition storage_effect (h : heap T) (v : Vector) (h' : heap T) (v' : Vector) : Prop :=
  (∀ c, blk (buffer_ (data_ v)) ≠ Some c → blk (buffer_ (data_ v')) ≠ Some c →
        h' !! c = h !! c) ∧
  (buffer_ (data_ v') = buffer_ (data_ v) ∨
   (∀ a, blk (buffer_ (data_ v')) = Some a → h !! a = None) ∧
   (∀ b, blk (buffer_ (data_ v)) = Some b → h' !! b = None)).

End Mutations.

(** ** Concrete runs *)

Module Scenario.

(** The spec's scenario on [Vector<int>]: three appends to an empty array,
    an insertion, an erasure, a [PopBack]. *)
Definition start : heap Z * Vector := (∅, Vector_default).

Definition the_appends : list (append_call Z) :=
  [via_PushBack_value 1; via_PushBack_value 2; via_PushBack_value 3].

(** The state after the first [n] appends. *)
Definition after (n : nat) : heap Z * Vector :=
  run_appends start (take n the_appends).

(** [Capacity()] before the first append and after each of the three. *)
Definition capacity_progression : list Z :=
  (λ n, Capacity (after n).2) <$> [0; 1; 2; 3]%nat.

Definition appended3 : heap Z * Vector := after 3.

(** [Insert(begin() + 1, 9)] *)
Definition inserted : heap Z * Vector :=
  (Insert appended3.1 appended3.2 (ptr_add (begin appended3.2) 1) (Some 9)).1.

(** [Erase(begin() + 2)] *)
Definition erased : heap Z * Vector :=
  (Erase inserted.1 inserted.2 (ptr_add (begin inserted.2) 2)).1.

(** [PopBack()] *)
Definition popped : heap Z * Vector := PopBack erased.1 erased.2.

(** The scenario with the capacities [caps] expected at the four points. *)
Definition holds_with (caps : list Z) : Prop :=
  elements appended3.1 appended3.2 = [Some 1; Some 2; Some 3] ∧
  Size appended3.2 = 3 ∧
  (Capacity appended3.2 = 3 ∨ Capacity appended3.2 = 4) ∧
  capacity_progression = caps ∧
  elements inserted.1 inserted.2 = [Some 1; Some 9; Some 2; Some 3] ∧
  elements erased.1 erased.2 = [Some 1; Some 9; Some 3] ∧
  elements popped.1 popped.2 = [Some 1; Some 9].

End Scenario.

Module MoveAssignRun.

(** Two arrays of [int], [a = [1]] and [b = [2]], then [a = std::move(b)]. *)
Definition a : positive := 1%positive.
Definition b : positive := 2%positive.

Definition two_arrays : machine Z :=
  foldl (λ m o, step o m) {| storage := ∅; objects := ∅ |}
    [op_default_construct a; op_PushBack_value a (Some 1);
     op_default_construct b; op_PushBack_value b (Some 2)].

Definition moved : machine Z := step (op_move_assign a b) two_arrays.

End MoveAssignRun.

Module ResizeRun.

(** [Vector<int> v; v.Resize(2);] next to [Vector<int> w(2);] *)
Definition resized : heap Z * Vector := Resize ∅ Vector_default 2.

Definition constructed : heap Z * Vector := Vector_new ∅ 2.

End ResizeRun.

Module InsertAtEndRun.

(** [Vector<std::unique_ptr<int>> v; v.Reserve(2); v.PushBack(p1);]
    with [p1] owning the integer 1, then [v.Insert(v.end(), p2)] and
    [v.Erase(v.begin() + 1)]. *)
Definition reserved : heap unique_ptr * Vector := Reserve ∅ Vector_default 2.

Definition original : heap unique_ptr * Vector :=
  (PushBack_value reserved.1 reserved.2 (Some (owning 1))).1.

Definition position : pointer := end_ original.2.

Definition after_insert : heap unique_ptr * Vector :=
  (Insert original.1 original.2 position (Some (owning 2))).1.

Definition after_erase : heap unique_ptr * Vector :=
  (Erase after_insert.1 after_insert.2 (ptr_add (begin after_insert.2) 1)).1.

End InsertAtEndRun.

Module CopyAssignRun.

(** [dst = [1]] with capacity 4 and [src = [2, 3]], then [dst = src]. *)
Definition dst : positive := 1%positive.
Definition src : positive := 2%positive.

Definition both : machine Z :=
  foldl (λ m o, step o m) {| storage := ∅; objects := ∅ |}
    [op_default_construct dst; op_Reserve dst 4; op_PushBack_value dst (Some 1);
     op_default_construct src; op_PushBack_value src (Some 2);
     op_PushBack_value src (Some 3)].

Definition vdst : Vector :=
  {| data_ := {| buffer_ := Some (1%positive, 0); capacity_ := 4 |}; size_ := 1 |}.

Definition vsrc : Vector :=
  {| data_ := {| buffer_ := Some (3%positive, 0); capacity_ := 2 |}; size_ := 2 |}.

End CopyAssignRun.

Module InvariantRun.

(** [Vector<int> v(3); v.PopBack();] *)
Definition vec : positive := 1%positive.

Definition no_objects : machine Z := {| storage := ∅; objects := ∅ |}.

Definition three_zeros : machine Z := step (op_construct vec 3) no_objects.

End InvariantRun.

Module Examples.

(** [Vector<int>] holding 1, 2, 3 with capacity 4. *)
Definition three : heap Z * Vector :=
  foldl mutate (∅, Vector_default) [do_PushBack 1; do_PushBack 2; do_PushBack 3].

(** [Vector<int>] holding 1, 2 with capacity 2: a full array. *)
Definition full : heap Z * Vector :=
  foldl mutate (∅, Vector_default) [do_PushBack 1; do_PushBack 2].


(** A second array, five zeros, constructed in [three]'s heap. *)
Definition with_zeros : heap Z * Vector := Vector_new three.1 5.

End Examples.

(** * Reasoning about the heap *)

Section HeapFacts.
Context {T : Type} `{Element T}.

Lemma ptr_add_add (p : pointer) (j k : Z) :
  ptr_add (ptr_add p j) k = ptr_add p (j + k).
Proof. destruct p as [[a i]|]; simpl; [f_equal; f_equal; lia | done]. Qed.

Lemma ptr_add_0 (p : pointer) : ptr_add p 0 = p.
Proof. destruct p as [[a i]|]; simpl; [f_equal; f_equal; lia | done]. Qed.

Lemma blk_ptr_add (p : pointer) (k : Z) : blk (ptr_add p k) = blk p.
Proof. by destruct p as [[a i]|]. Qed.

Lemma block_size_write (h : heap T) p s a :
  block_size (write h p s) a = block_size h a.
Proof.
  unfold block_size, write. destruct p as [[b i]|]; [|done].
  case_decide; [|done].
  rewrite lookup_alter. case_decide; [|done]. subst b.
  destruct (h !! a) as [l|]; simpl; [|done].
  by rewrite length_insert.
Qed.

Lemma valid_write (h : heap T) p s q : valid (write h p s) q ↔ valid h q.
Proof.
  destruct q as [[a i]|]; simpl; [|done].
  by setoid_rewrite block_size_write.
Qed.

Lemma read_write_eq (h : heap T) p s : valid h p → read (write h p s) p = s.
Proof.
  destruct p as [[a i]|]; simpl; [|done].
  intros (n & Hn & Hi). unfold block_size in Hn.
  destruct (h !! a) as [l|] eqn:Hl; simplify_eq/=.
  case_decide; [|lia].
  rewrite lookup_alter. case_decide; [|done]. rewrite Hl. simpl.
  rewrite list_lookup_insert_eq; [done | lia].
Qed.

Lemma read_write_ne (h : heap T) p s q : p ≠ q → read (write h p s) q = read h q.
Proof.
  intros Hne. destruct p as [[a i]|]; simpl; [|done].
  case_decide; [|done].
  destruct q as [[b j]|]; simpl; [|done].
  case_decide; [|done].
  rewrite lookup_alter. case_decide; [|done]. subst b.
  destruct (h !! a) as [l|]; simpl; [|done].
  rewrite list_lookup_insert_ne; [done|].
  intros Heq. apply Hne. do 2 f_equal. lia.
Qed.

Lemma read_invalid (h : heap T) p : ¬ valid h p → read h p = None.
Proof.
  destruct p as [[a i]|]; simpl; [|done]. intros Hv.
  case_decide; [|done]. unfold block_size in Hv.
  destruct (h !! a) as [l|]; [|done].
  destruct (l !! Z.to_nat i) eqn:Hl; [|done].
  exfalso. apply Hv. exists (length l). split; [done|].
  apply lookup_lt_Some in Hl. lia.
Qed.

Lemma valid_dec (h : heap T) p : valid h p ∨ ¬ valid h p.
Proof.
  destruct p as [[a i]|]; simpl; [|right; tauto].
  destruct (block_size h a) as [n|]; [|right; intros (? & ? & ?); discriminate].
  destruct (decide (0 ≤ i < Z.of_nat n)); [left; eauto|].
  right. intros (? & ? & ?). simplify_eq. lia.
Qed.

Lemma blk_ne (p q : pointer) : blk p ≠ blk q → p ≠ q.
Proof. congruence. Qed.

(** Element operations, cell by cell. *)

Lemma block_size_move_construct (h : heap T) dst src a :
  block_size (move_construct h dst src) a = block_size h a.
Proof. unfold move_construct. by rewrite !block_size_write. Qed.

Lemma read_move_construct_dst (h : heap T) dst src :
  valid h dst → read (move_construct h dst src) dst = read h src.
Proof.
  intros Hv. unfold move_construct. rewrite read_write_eq; [done|].
  by apply valid_write.
Qed.


Lemma read_move_construct_other (h : heap T) dst src q :
  q ≠ dst → q ≠ src → read (move_construct h dst src) q = read h q.
Proof.
  intros H1 H2. unfold move_construct. by rewrite !read_write_ne.
Qed.

Lemma block_size_copy_construct (h : heap T) dst src a :
  block_size (copy_construct h dst src) a = block_size h a.
Proof. unfold copy_construct. by rewrite block_size_write. Qed.

Lemma read_copy_construct_dst (h : heap T) dst src :
  valid h dst → read (copy_construct h dst src) dst = read h src.
Proof. intros Hv. unfold copy_construct. by rewrite read_write_eq. Qed.

Lemma read_copy_construct_other (h : heap T) dst src q :
  q ≠ dst → read (copy_construct h dst src) q = read h q.
Proof. intros H1. unfold copy_construct. by rewrite read_write_ne. Qed.

End HeapFacts.

(** * The standard algorithms, cell by cell *)

Section Algorithms.
Context {T : Type} `{Element T}.

(** Relocating [n] elements into another block by move. *)
Lemma uninitialized_move_loop_spec n (h : heap T) b i a j :
  b ≠ a → 0 ≤ j →
  (∃ m, block_size h a = Some m ∧ j + Z.of_nat n ≤ Z.of_nat m) →
  let h' := uninitialized_move_loop n h (Some (b, i)) (Some (a, j)) in
  (∀ k, 0 ≤ k < Z.of_nat n →
        read h' (Some (a, j + k)) = read h (Some (b, i + k))) ∧
  (∀ c l, (c = b → ¬ (i ≤ l < i + Z.of_nat n)) →
          (c = a → ¬ (j ≤ l < j + Z.of_nat n)) →
        read h' (Some (c, l)) = read h (Some (c, l))) ∧
  (∀ c, block_size h' c = block_size h c).
Proof.
  revert h i j. induction n as [|n IH]; intros h i j Hba Hj (m & Hm & Hle);
    cbn [uninitialized_move_loop ptr_add].
  - split_and!; [intros; lia | done | done].
  - set (h1 := move_construct h (Some (a, j)) (Some (b, i))).
    destruct (IH h1 (i + 1) (j + 1)) as (IH1 & IH2 & IH3); [done | lia | |].
    { exists m. unfold h1. rewrite block_size_move_construct. split; [done | lia]. }
    split_and!.
    + intros k Hk. destruct (decide (k = 0)) as [->|Hk0].
      * rewrite !Z.add_0_r. rewrite IH2; [| congruence | lia].
        apply read_move_construct_dst. exists m. split; [done | lia].
      * replace (j + k) with (j + 1 + (k - 1)) by lia. rewrite IH1 by lia.
        replace (i + 1 + (k - 1)) with (i + k) by lia.
        apply read_move_construct_other; [congruence | intros [=]; lia].
    + intros c l Hc Hl.
      rewrite IH2; [| intros ->; specialize (Hc eq_refl); lia
                    | intros ->; specialize (Hl eq_refl); lia].
      apply read_move_construct_other.
      * intros [= -> ->]. apply Hl; [done | lia].
      * intros [= -> ->]. apply Hc; [done | lia].
    + intros c. rewrite IH3. apply block_size_move_construct.
Qed.

(** Copying [n] elements into other slots; the sources are left alone. *)
Lemma uninitialized_copy_loop_spec n (h : heap T) b i a j :
  b ≠ a → 0 ≤ j →
  (∃ m, block_size h a = Some m ∧ j + Z.of_nat n ≤ Z.of_nat m) →
  let h' := uninitialized_copy_loop n h (Some (b, i)) (Some (a, j)) in
  (∀ k, 0 ≤ k < Z.of_nat n →
        read h' (Some (a, j + k)) = read h (Some (b, i + k))) ∧
  (∀ c l, (c = a → ¬ (j ≤ l < j + Z.of_nat n)) →
        read h' (Some (c, l)) = read h (Some (c, l))) ∧
  (∀ c, block_size h' c = block_size h c).
Proof.
  revert h i j. induction n as [|n IH]; intros h i j Hba Hj (m & Hm & Hle);
    cbn [uninitialized_copy_loop ptr_add].
  - split_and!; [intros; lia | done | done].
  - set (h1 := copy_construct h (Some (a, j)) (Some (b, i))).
    destruct (IH h1 (i + 1) (j + 1)) as (IH1 & IH2 & IH3); [done | lia | |].
    { exists m. unfold h1. rewrite block_size_copy_construct. split; [done | lia]. }
    split_and!.
    + intros k Hk. destruct (decide (k = 0)) as [->|Hk0].
      * rewrite !Z.add_0_r. rewrite IH2; [| lia].
        apply read_copy_construct_dst. exists m. split; [done | lia].
      * replace (j + k) with (j + 1 + (k - 1)) by lia. rewrite IH1 by lia.
        replace (i + 1 + (k - 1)) with (i + k) by lia.
        apply read_copy_construct_other. congruence.
    + intros c l Hl. rewrite IH2; [| intros ->; specialize (Hl eq_refl); lia].
      apply read_copy_construct_other.
      intros [= -> ->]. apply Hl; [done | lia].
    + intros c. rewrite IH3. apply block_size_copy_construct.
Qed.

(** Element-wise copy assignment has the effect of element-wise copy
    construction: both store the source's value in the destination. *)
Lemma copy_assign_loop_eq n (h : heap T) dst src :
  copy_assign_loop n h dst src = uninitialized_copy_loop n h src dst.
Proof. revert h dst src. induction n as [|n IH]; intros; simpl; [done | apply IH]. Qed.

(** Destroying [n] elements. *)
Lemma destroy_loop_spec n (h : heap T) a i :
  let h' := destroy_loop n h (Some (a, i)) in
  (∀ k, 0 ≤ k < Z.of_nat n → read h' (Some (a, i + k)) = None) ∧
  (∀ c l, (c = a → ¬ (i ≤ l < i + Z.of_nat n)) →
        read h' (Some (c, l)) = read h (Some (c, l))) ∧
  (∀ c, block_size h' c = block_size h c).
Proof.
  revert h i. induction n as [|n IH]; intros h i; cbn [destroy_loop ptr_add].
  - split_and!; [intros; lia | done | done].
  - set (h1 := destroy_at h (Some (a, i))).
    destruct (IH h1 (i + 1)) as (IH1 & IH2 & IH3).
    split_and!.
    + intros k Hk. destruct (decide (k = 0)) as [->|Hk0].
      * rewrite Z.add_0_r. rewrite IH2 by lia. unfold h1, destroy_at.
        destruct (valid_dec h (Some (a, i))) as [Hv|Hv].
        -- by rewrite read_write_eq.
        -- apply read_invalid. by rewrite valid_write.
      * replace (i + k) with (i + 1 + (k - 1)) by lia. apply IH1. lia.
    + intros c l Hl. rewrite IH2; [| intros ->; specialize (Hl eq_refl); lia].
      unfold h1, destroy_at. apply read_write_ne.
      intros [= -> ->]. apply Hl; [done | lia].
    + intros c. rewrite IH3. unfold h1, destroy_at. apply block_size_write.
Qed.

Lemma destroy_loop_null n (h : heap T) : destroy_loop n h None = h.
Proof. revert h. induction n as [|n IH]; intros; simpl; [done | apply IH]. Qed.

Lemma uninitialized_move_loop_0 (h : heap T) src dst :
  uninitialized_move_loop 0 h src dst = h.
Proof. done. Qed.



End Algorithms.

(** * Allocation *)

Section Allocation.
Context {T : Type} `{Element T}.

Lemma fresh_unused (h : heap T) : h !! fresh (dom h) = None.
Proof. apply not_elem_of_dom. apply is_fresh. Qed.

Lemma fresh_ne (h : heap T) a n : block_size h a = Some n → a ≠ fresh (dom h).
Proof.
  unfold block_size. intros Hn ->. by rewrite fresh_unused in Hn.
Qed.

Lemma block_size_insert (h : heap T) a b c :
  block_size (<[a := b]> h) c = if decide (a = c) then Some (length b) else block_size h c.
Proof.
  unfold block_size. rewrite lookup_insert. by case_decide.
Qed.

Lemma block_size_delete_ne (h : heap T) a c :
  a ≠ c → block_size (delete a h) c = block_size h c.
Proof. intros Hne. unfold block_size. by rewrite lookup_delete_ne. Qed.

Lemma read_insert_ne (h : heap T) a b c l :
  a ≠ c → read (<[a := b]> h) (Some (c, l)) = read h (Some (c, l)).
Proof. intros Hne. unfold read. by rewrite lookup_insert_ne. Qed.

Lemma read_insert_fresh (h : heap T) a n l :
  read (<[a := replicate n None]> h) (Some (a, l)) = None.
Proof.
  unfold read. case_decide; [|done]. rewrite lookup_insert_eq.
  destruct (replicate n None !! Z.to_nat l) as [s|] eqn:Hs; [|done].
  apply lookup_replicate in Hs as [-> _]. done.
Qed.

Lemma read_delete_ne (h : heap T) a c l :
  a ≠ c → read (delete a h) (Some (c, l)) = read h (Some (c, l)).
Proof. intros Hne. unfold read. by rewrite lookup_delete_ne. Qed.

(** Storage that is allocated and released again leaves the heap as it
    was. *)
Lemma Deallocate_Allocate (h : heap T) n :
  Deallocate (Allocate h n).1 (Allocate h n).2 = h.
Proof.
  unfold Allocate. case_decide; simpl; [|done].
  rewrite delete_insert_eq. apply delete_id, fresh_unused.
Qed.

End Allocation.

(** * Appending *)

Section Append.
Context {T : Type} `{Element T}.

Lemma wrap_small n : 0 ≤ n < 2 ^ SIZE_BITS → wrap n = n.
Proof. intros Hn. unfold wrap. by apply Z.mod_small. Qed.

Lemma wrap_range n : 0 ≤ wrap n < 2 ^ SIZE_BITS.
Proof. unfold wrap, SIZE_BITS. apply Z.mod_pos_bound. lia. Qed.

Lemma grown_capacity_bounds size :
  0 ≤ size < 2 ^ (SIZE_BITS - 1) →
  size + 1 ≤ grown_capacity size < 2 ^ SIZE_BITS ∧
  grown_capacity size = Z.max 1 (2 * size).
Proof.
  unfold grown_capacity, SIZE_BITS. intros Hs. case_decide.
  - subst. simpl. lia.
  - rewrite wrap_small; unfold SIZE_BITS; lia.
Qed.

(** The template [PushBack] and the two forwarding overloads do the same. *)
Lemma PushBack_eq (h : heap T) v c : PushBack h v c = PushBack_value h v c.
Proof.
  unfold PushBack, PushBack_value, EmplaceBack.
  case_decide; [destruct (RawMemory_new h _) as [h1 r] |]; destruct c; done.
Qed.

(** What a successful append does. *)
Lemma EmplaceBack_spec (h : heap T) v x :
  wf h v → size_ v < 2 ^ (SIZE_BITS - 1) →
  ∃ h' v' p, EmplaceBack h v (Some x) = (h', v', Returned p) ∧
    wf h' v' ∧
    size_ v' = size_ v + 1 ∧
    (∀ i, 0 ≤ i < size_ v → at_ h' v' i = at_ h v i) ∧
    at_ h' v' (size_ v) = Some x.
Proof.
  intros [[Hsz Hcap] Hbuf] Hlim.
  assert (Hw : wrap (size_ v + 1) = size_ v + 1).
  { apply wrap_small. unfold SIZE_BITS in *. lia. }
  unfold EmplaceBack, Capacity. rewrite !Hw. case_decide as Hfull.
  - (* the array is full: relocate into a larger buffer *)
    destruct (grown_capacity_bounds (size_ v)) as [Hg _]; [lia|].
    unfold RawMemory_new, Allocate. case_decide as Hg0; [|lia].
    set (a := fresh (dom h)).
    set (n := grown_capacity (size_ v)) in *.
    set (h1 := <[a := replicate (Z.to_nat n) None]> h).
    unfold RawMemory_Swap, RawMemory_plus, GetAddress, RawMemory_delete.
    cbn [buffer_ capacity_ ptr_add].
    set (h2 := construct_at h1 (Some (a, 0 + size_ v)) x).
    assert (Hbs2 : ∀ c, block_size h2 c =
              if decide (a = c) then Some (Z.to_nat n) else block_size h c).
    { intros c. unfold h2, construct_at. rewrite block_size_write.
      unfold h1. rewrite block_size_insert, length_replicate. done. }
    assert (Hnew : read h2 (Some (a, size_ v)) = Some x).
    { unfold h2, construct_at. rewrite Z.add_0_l. apply read_write_eq.
      exists (Z.to_nat n). unfold h1. rewrite block_size_insert, length_replicate.
      rewrite decide_True by done. split; [done | lia]. }
    assert (Hold2 : ∀ c l, c ≠ a → read h2 (Some (c, l)) = read h (Some (c, l))).
    { intros c l Hc. unfold h2, construct_at. rewrite read_write_ne by congruence.
      unfold h1. by apply read_insert_ne. }
    eexists _, _, _. split; [reflexivity|].
    destruct (buffer_ (data_ v)) as [[b o]|] eqn:Hb.
    + (* a non-null old buffer *)
      destruct Hbuf as [-> Hbs].
      assert (Hba : b ≠ a) by (eapply fresh_ne; eauto).
      set (h3 := if relocate_by_move
                 then uninitialized_move_n h2 (Some (b, 0)) (size_ v) (Some (a, 0))
                 else uninitialized_copy_n h2 (Some (b, 0)) (size_ v) (Some (a, 0))).
      assert (Hrel : (∀ k, 0 ≤ k < size_ v →
                        read h3 (Some (a, k)) = read h (Some (b, k))) ∧
                     read h3 (Some (a, size_ v)) = Some x ∧
                     (∀ c, block_size h3 c = block_size h2 c)).
      { assert (Hdst : ∃ m, block_size h2 a = Some m ∧
                  0 + Z.of_nat (Z.to_nat (size_ v)) ≤ Z.of_nat m).
        { exists (Z.to_nat n). rewrite Hbs2, decide_True by done. split; [done | lia]. }
        unfold h3. destruct relocate_by_move.
        - destruct (uninitialized_move_loop_spec (Z.to_nat (size_ v)) h2 b 0 a 0)
            as (M1 & M2 & M3); [done | lia | done |].
          unfold uninitialized_move_n. split_and!; [| | done].
          + intros k Hk. specialize (M1 k). rewrite !Z.add_0_l in M1.
            rewrite M1 by lia. by apply Hold2.
          + rewrite M2; [done | by intros -> | lia].
        - destruct (uninitialized_copy_loop_spec (Z.to_nat (size_ v)) h2 b 0 a 0)
            as (M1 & M2 & M3); [done | lia | done |].
          unfold uninitialized_copy_n. split_and!; [| | done].
          + intros k Hk. specialize (M1 k). rewrite !Z.add_0_l in M1.
            rewrite M1 by lia. by apply Hold2.
          + rewrite M2; [done | lia]. }
      destruct Hrel as (R1 & R2 & R3).
      unfold destroy_n. cbn [Deallocate].
      destruct (destroy_loop_spec (Z.to_nat (capacity_ (data_ v))) h3 b 0)
        as (_ & D2 & D3).
      set (h4 := destroy_loop _ h3 _) in *.
      assert (Hfin : ∀ l, read (delete b h4) (Some (a, l)) = read h3 (Some (a, l))).
      { intros l. rewrite read_delete_ne by done. apply D2. intros ->. done. }
      refine (conj _ (conj _ (conj _ _))).
      * split; [unfold invariant; cbn [data_ size_ buffer_ capacity_]; unfold SIZE_BITS in *; lia|].
        cbn [data_ size_ buffer_ capacity_]. split; [done|].
        rewrite block_size_delete_ne by done. rewrite D3, R3, Hbs2.
        by rewrite decide_True.
      * done.
      * intros i Hi. unfold at_. cbn [data_ buffer_ ptr_add]. rewrite Hb.
        cbn [ptr_add]. rewrite !Z.add_0_l, Hfin. by apply R1.
      * unfold at_. cbn [data_ buffer_ ptr_add]. by rewrite Z.add_0_l, Hfin.
    + (* a null old buffer: nothing to relocate *)
      assert (Hz : size_ v = 0) by lia.
      replace (if relocate_by_move
               then uninitialized_move_n h2 None (size_ v) (Some (a, 0))
               else uninitialized_copy_n h2 None (size_ v) (Some (a, 0)))
        with h2 by (rewrite Hz; by destruct relocate_by_move).
      unfold destroy_n. rewrite destroy_loop_null. cbn [Deallocate].
      refine (conj _ (conj _ (conj _ _))).
      * split; [unfold invariant; cbn [data_ size_ buffer_ capacity_]; unfold SIZE_BITS in *; lia|].
        cbn [data_ size_ buffer_ capacity_]. split; [done|].
        by rewrite Hbs2, decide_True.
      * done.
      * intros i Hi. lia.
      * unfold at_. cbn [data_ buffer_ ptr_add]. by rewrite Z.add_0_l.
  - (* spare capacity: construct in place *)
    eexists _, _, _. split; [reflexivity|].
    unfold RawMemory_plus.
    destruct (buffer_ (data_ v)) as [[b o]|] eqn:Hb; [|lia].
    destruct Hbuf as [-> Hbs]. cbn [ptr_add].
    refine (conj _ (conj _ (conj _ _))).
    + split; [unfold invariant; cbn [data_ size_]; lia|].
      cbn [data_ size_]. rewrite Hb. split; [done|].
      unfold construct_at. by rewrite block_size_write.
    + done.
    + intros i Hi. unfold at_. cbn [data_]. rewrite Hb. cbn [ptr_add].
      unfold construct_at. apply read_write_ne. intros [=]. lia.
    + unfold at_. cbn [data_]. rewrite Hb. cbn [ptr_add].
      unfold construct_at. apply read_write_eq.
      exists (Z.to_nat (capacity_ (data_ v))). split; [done | lia].
Qed.

End Append.

(** * Sequences of appends *)

Section AppendRuns.
Context {T : Type} `{Element T}.

Lemma run_append_EmplaceBack (st : heap T * Vector) c :
  run_append st c = (EmplaceBack st.1 st.2 (Some (appended c))).1.
Proof.
  destruct c as [x|x|x]; simpl; [rewrite PushBack_eq | |done];
    unfold PushBack_value; by destruct (EmplaceBack _ _ _) as [[h' v'] r].
Qed.

Lemma run_append_spec (h : heap T) v c :
  wf h v → size_ v < 2 ^ (SIZE_BITS - 1) →
  let st := run_append (h, v) c in
  wf st.1 st.2 ∧
  size_ st.2 = size_ v + 1 ∧
  (∀ i, 0 ≤ i < size_ v → at_ st.1 st.2 i = at_ h v i) ∧
  at_ st.1 st.2 (size_ v) = Some (appended c).
Proof.
  intros Hwf Hlim. rewrite run_append_EmplaceBack. cbn [fst snd].
  destruct (EmplaceBack_spec h v (appended c) Hwf Hlim)
    as (h' & v' & p & -> & ?). done.
Qed.

Lemma run_appends_spec (cs : list (append_call T)) (h : heap T) v :
  wf h v → size_ v + Z.of_nat (length cs) ≤ 2 ^ (SIZE_BITS - 1) →
  let st := run_appends (h, v) cs in
  wf st.1 st.2 ∧
  size_ st.2 = size_ v + Z.of_nat (length cs) ∧
  (∀ i, 0 ≤ i < size_ v → at_ st.1 st.2 i = at_ h v i) ∧
  (∀ (k : nat) x, (appended <$> cs) !! k = Some x →
        at_ st.1 st.2 (size_ v + Z.of_nat k) = Some x).
Proof.
  revert h v. induction cs as [|c cs IH]; intros h v Hwf Hlim.
  - cbn. split_and!; [done | lia | done | done].
  - cbn [run_appends foldl]. cbn [length] in Hlim.
    destruct (run_append_spec h v c Hwf) as (W1 & S1 & O1 & N1); [lia|].
    destruct (run_append (h, v) c) as [h1 v1] eqn:Hst. cbn [fst snd] in *.
    destruct (IH h1 v1 W1) as (W2 & S2 & O2 & N2); [lia|].
    fold (run_appends (h1, v1) cs).
    assert (0 ≤ size_ v) by (destruct Hwf as [[[? ?] ?] ?]; done).
    split_and!.
    + done.
    + cbn [length]. lia.
    + intros i Hi. rewrite O2 by lia. by apply O1.
    + intros [|k] x Hk; simplify_eq/=.
      * rewrite Z.add_0_r. rewrite O2 by lia. done.
      * replace (size_ v + Z.of_nat (S k)) with (size_ v1 + Z.of_nat k) by lia.
        by apply N2.
Qed.

Lemma wf_Vector_default (h : heap T) : wf h Vector_default.
Proof. split; [|done]. unfold invariant, SIZE_BITS. simpl. lia. Qed.

(** C1. After [N] values have been appended to an empty array, by any mix
    of [PushBack] and [EmplaceBack], [Size()] is [N] and element [i] is
    the [i]-th appended value, for every [i < N].  ([N] is at most [2^63]:
    beyond that [size_ * 2] no longer fits a [size_t].) *)
Theorem appends_size_and_elements (h0 : heap T) (cs : list (append_call T)) :
  Z.of_nat (length cs) ≤ 2 ^ (SIZE_BITS - 1) →
  let st := run_appends (h0, Vector_default) cs in
  Size st.2 = Z.of_nat (length cs) ∧
  ∀ (i : nat) x, (appended <$> cs) !! i = Some x →
    at_ st.1 st.2 (Z.of_nat i) = Some x.
Proof.
  intros Hlen.
  destruct (run_appends_spec cs h0 Vector_default (wf_Vector_default h0))
    as (_ & S & _ & N); [simpl; lia|].
  split; [apply S | intros i x Hi; by apply (N i x)].
Qed.

End AppendRuns.

(** * Capacity under appends *)

Section Growth.
Context {T : Type} `{Element T}.

(** Size and capacity after an append, whatever the heap. *)
Lemma EmplaceBack_shape (h : heap T) v x :
  let v' := (EmplaceBack h v (Some x)).1.2 in
  size_ v' = wrap (size_ v + 1) ∧
  capacity_ (data_ v') =
    if decide (size_ v = capacity_ (data_ v)) then grown_capacity (size_ v)
    else capacity_ (data_ v).
Proof.
  unfold EmplaceBack, Capacity, RawMemory_new.
  case_decide; [destruct (Allocate h _) as [h1 p]|]; done.
Qed.

Lemma run_append_shape (h : heap T) v c :
  invariant v → size_ v < 2 ^ (SIZE_BITS - 1) →
  let v' := (run_append (h, v) c).2 in
  invariant v' ∧
  size_ v' = size_ v + 1 ∧
  capacity_ (data_ v') =
    if decide (size_ v = capacity_ (data_ v)) then Z.max 1 (2 * capacity_ (data_ v))
    else capacity_ (data_ v).
Proof.
  intros [Hsz Hcap] Hlim. rewrite run_append_EmplaceBack. cbn [fst snd].
  destruct (EmplaceBack_shape h v (appended c)) as [Hs Hc].
  destruct (grown_capacity_bounds (size_ v)) as [Hg Hmax]; [lia|].
  rewrite wrap_small in Hs by (unfold SIZE_BITS in *; lia).
  unfold invariant. rewrite Hs, Hc.
  case_decide as Hfull; [rewrite <- Hfull, <- Hmax|]; lia.
Qed.

Lemma run_appends_shape (cs : list (append_call T)) (h : heap T) v :
  invariant v → size_ v + Z.of_nat (length cs) ≤ 2 ^ (SIZE_BITS - 1) →
  let v' := (run_appends (h, v) cs).2 in
  invariant v' ∧ size_ v' = size_ v + Z.of_nat (length cs).
Proof.
  revert h v. induction cs as [|c cs IH]; intros h v Hinv Hlim.
  - cbn. split; [done | lia].
  - cbn [run_appends foldl]. cbn [length] in Hlim.
    destruct (run_append_shape h v c Hinv) as (I1 & S1 & _); [lia|].
    destruct (run_append (h, v) c) as [h1 v1]. cbn [snd] in *.
    destruct (IH h1 v1 I1) as (I2 & S2); [lia|].
    fold (run_appends (h1, v1) cs). split; [done | cbn [length]; lia].
Qed.

(** C4. At every append of a sequence of appends the capacity does not
    decrease; it increases exactly when the size would exceed the capacity
    the array had, and then to [max(1, 2 * previous capacity)].  (Sizes
    stay below [2^63], so that the doubled capacity is a [size_t].) *)
Theorem capacity_growth (h : heap T) v (before : list (append_call T)) (c : append_call T) :
  invariant v →
  size_ v + Z.of_nat (length before) < 2 ^ (SIZE_BITS - 1) →
  let st := run_appends (h, v) before in
  let st' := run_append st c in
  Capacity st.2 ≤ Capacity st'.2 ∧
  (Capacity st.2 < Capacity st'.2 ↔ Capacity st.2 < Size st.2 + 1) ∧
  (Capacity st.2 < Capacity st'.2 → Capacity st'.2 = Z.max 1 (2 * Capacity st.2)).
Proof.
  intros Hinv Hlim.
  destruct (run_appends_shape before h v Hinv) as (I1 & S1); [lia|].
  destruct (run_appends (h, v) before) as [h1 v1]. cbn [fst snd] in *.
  destruct (run_append_shape h1 v1 c I1) as (_ & _ & C2); [lia|].
  unfold Capacity, Size. rewrite C2. destruct I1 as [I1 I1'].
  case_decide; lia.
Qed.

(** C5. When the array is full and the construction of the appended value
    throws, the call leaves the heap and the array exactly as they were:
    the new buffer is released again and no element has been relocated. *)
Theorem append_throw_leaves_array (h : heap T) v :
  Size v = Capacity v →
  EmplaceBack h v None = (h, v, Threw) ∧
  PushBack h v None = (h, v, Threw) ∧
  PushBack_value h v None = (h, v, Threw).
Proof.
  intros Hfull. unfold Size in Hfull.
  assert (HE : EmplaceBack h v None = (h, v, Threw)).
  { unfold EmplaceBack, RawMemory_new, RawMemory_delete.
    rewrite decide_True by done.
    pose proof (Deallocate_Allocate h (grown_capacity (size_ v))) as HD.
    destruct (Allocate h _) as [h1 p]. simpl in *. by rewrite HD. }
  split_and!; [done | rewrite PushBack_eq |]; unfold PushBack_value; by rewrite HE.
Qed.

End Growth.

(** * The invariant [size_ <= capacity_] *)

Section Invariant.
Context {T : Type} `{Element T}.

Local Ltac unfold_ops :=
  unfold Vector_new, Vector_copy, Vector_move, Vector_default, Reserve, Resize,
    PushBack_value, EmplaceBack, Insert, Emplace, Erase, PopBack, Swap,
    copy_assign_from, move_assign_from, Capacity, RawMemory_new, RawMemory_Swap,
    RawMemory_move_assign, RawMemory_default, Allocate, GetAddress, nullptr.

Local Ltac arith :=
  unfold rep_ok, invariant, is_size_t, nullptr, SIZE_BITS in *;
  cbn [data_ size_ buffer_ capacity_ fst snd] in *;
  destruct_and?; repeat split; intros; try discriminate; try lia; try congruence;
  try (by auto).

Lemma wrap_succ n : 0 ≤ n < 2 ^ (SIZE_BITS - 1) → wrap (n + 1) = n + 1.
Proof. intros. apply wrap_small. unfold SIZE_BITS in *. lia. Qed.

Lemma wrap_pred n : 0 < n < 2 ^ SIZE_BITS → wrap (n - 1) = n - 1.
Proof. intros. apply wrap_small. unfold SIZE_BITS in *. lia. Qed.

Lemma rep_ok_Vector_default : rep_ok Vector_default.
Proof. unfold Vector_default, RawMemory_default. arith. Qed.

Lemma rep_ok_Vector_new (h : heap T) n : is_size_t n → rep_ok (Vector_new h n).2.
Proof. intros Hn. unfold_ops. case_decide; arith. Qed.

Lemma rep_ok_Vector_copy (h : heap T) other :
  rep_ok other → rep_ok (Vector_copy h other).2.
Proof. intros Ho. unfold_ops. case_decide; arith. Qed.

Lemma rep_ok_Vector_move other :
  rep_ok other → rep_ok (Vector_move other).1 ∧ rep_ok (Vector_move other).2.
Proof.
  intros Ho. unfold_ops. cbn [buffer_]. case_decide as Hb; cbn [fst snd].
  - arith.
  - destruct Ho as [[? ?] Hz]. specialize (Hz (eq_sym Hb)). arith.
Qed.

Lemma rep_ok_grow p size :
  0 ≤ size < 2 ^ (SIZE_BITS - 1) →
  (p = nullptr → grown_capacity size = 0) →
  rep_ok {| data_ := {| buffer_ := p; capacity_ := grown_capacity size |};
            size_ := wrap (size + 1) |}.
Proof.
  intros Hs Hp. rewrite wrap_succ by done.
  destruct (grown_capacity_bounds size Hs) as [Hg _]. arith.
Qed.

Lemma rep_ok_EmplaceBack (h : heap T) v c :
  rep_ok v → size_ v < 2 ^ (SIZE_BITS - 1) → rep_ok (EmplaceBack h v c).1.2.
Proof.
  intros Hv Hlim. unfold_ops.
  assert (0 ≤ size_ v < 2 ^ (SIZE_BITS - 1)) by (destruct Hv as [[[? ?] ?] ?]; lia).
  pose proof (grown_capacity_bounds (size_ v) ltac:(done)) as [Hg _].
  case_decide as Hfull; [case_decide; [|lia] |]; destruct c; cbn [fst snd]; try done.
  - apply rep_ok_grow; [done | discriminate].
  - rewrite wrap_succ by done. destruct Hv as [[[? ?] ?] ?]. arith.
Qed.

Lemma rep_ok_PushBack (h : heap T) v c :
  rep_ok v → size_ v < 2 ^ (SIZE_BITS - 1) → rep_ok (PushBack h v c).1.2.
Proof.
  intros Hv Hlim. rewrite PushBack_eq. unfold PushBack_value.
  pose proof (rep_ok_EmplaceBack h v c Hv Hlim) as HE.
  by destruct (EmplaceBack h v c) as [[h' v'] r].
Qed.

Lemma rep_ok_PushBack_value (h : heap T) v c :
  rep_ok v → size_ v < 2 ^ (SIZE_BITS - 1) → rep_ok (PushBack_value h v c).1.2.
Proof. rewrite <- PushBack_eq. apply rep_ok_PushBack. Qed.

Lemma rep_ok_Emplace (h : heap T) v pos c :
  rep_ok v → size_ v < 2 ^ (SIZE_BITS - 1) → rep_ok (Emplace h v pos c).1.2.
Proof.
  intros Hv Hlim. unfold_ops.
  assert (0 ≤ size_ v < 2 ^ (SIZE_BITS - 1)) by (destruct Hv as [[[? ?] ?] ?]; lia).
  pose proof (grown_capacity_bounds (size_ v) ltac:(done)) as [Hg _].
  case_decide as Hfull; [case_decide; [|lia] | case_decide];
    destruct c; cbn [fst snd]; try done.
  - apply rep_ok_grow; [done | discriminate].
  - rewrite wrap_succ by done. destruct Hv as [[[? ?] ?] ?]. arith.
  - rewrite wrap_succ by done. destruct Hv as [[[? ?] ?] ?]. arith.
Qed.

Lemma rep_ok_shrink (d : RawMemory) size :
  rep_ok {| data_ := d; size_ := size |} → 0 < size →
  rep_ok {| data_ := d; size_ := wrap (size - 1) |}.
Proof.
  intros [[[? ?] ?] ?] Hpos. rewrite wrap_pred by (cbn in *; lia). arith.
Qed.

Lemma rep_ok_Erase (h : heap T) v pos :
  rep_ok v → 0 < size_ v → rep_ok (Erase h v pos).1.2.
Proof. intros Hv Hpos. unfold_ops. cbn [fst snd]. apply rep_ok_shrink; by destruct v. Qed.

Lemma rep_ok_PopBack (h : heap T) v :
  rep_ok v → 0 < size_ v → rep_ok (PopBack h v).2.
Proof. intros Hv Hpos. unfold_ops. cbn [fst snd]. apply rep_ok_shrink; by destruct v. Qed.

Lemma rep_ok_Reserve (h : heap T) v n :
  rep_ok v → is_size_t n →
  rep_ok (Reserve h v n).2 ∧ size_ (Reserve h v n).2 = size_ v ∧
  n ≤ capacity_ (data_ (Reserve h v n).2).
Proof.
  intros Hv Hn. unfold_ops. destruct Hv as [[[? ?] ?] ?].
  case_decide; [|case_decide]; arith.
Qed.

Lemma rep_ok_Resize (h : heap T) v n :
  rep_ok v → is_size_t n → rep_ok (Resize h v n).2.
Proof.
  intros Hv Hn. unfold Resize.
  destruct (rep_ok_Reserve h v n Hv Hn) as ([[[? ?] ?] ?] & ? & ?).
  destruct (Reserve h v n) as [h1 v1]. destruct Hv as [[[? ?] ?] ?].
  case_decide; arith; auto.
Qed.

Lemma rep_ok_copy_assign_from (h : heap T) this rhs :
  rep_ok this → rep_ok rhs → rep_ok (copy_assign_from h this rhs).2.
Proof.
  intros [[[? ?] ?] ?] [[[? ?] ?] ?]. unfold copy_assign_from. unfold_ops.
  repeat case_decide; arith.
Qed.

Lemma rep_ok_move_assign_from this rhs :
  rep_ok this → rep_ok rhs →
  rep_ok (move_assign_from this rhs).1 ∧ rep_ok (move_assign_from this rhs).2.
Proof.
  intros Ht Hr. unfold_ops. cbn [buffer_].
  case_decide; cbn [fst snd]; [|done].
  destruct Hr as [[[? ?] ?] ?]. arith.
Qed.

Lemma rep_ok_Swap this other :
  rep_ok this → rep_ok other →
  rep_ok (Swap this other).1 ∧ rep_ok (Swap this other).2.
Proof.
  intros [[[? ?] ?] ?] [[[? ?] ?] ?]. unfold_ops. arith.
Qed.

Lemma machine_ok_insert (m : machine T) (h' : heap T) n v :
  machine_ok m → rep_ok v →
  machine_ok {| storage := h'; objects := <[n := v]> (objects m) |}.
Proof.
  intros Hm Hv k w. cbn [objects]. rewrite lookup_insert.
  case_decide; [by intros [= <-] | apply Hm].
Qed.

Lemma machine_ok_insert2 (m : machine T) (h' : heap T) n v n' v' :
  machine_ok m → rep_ok v → rep_ok v' →
  machine_ok {| storage := h'; objects := <[n := v]> (<[n' := v']> (objects m)) |}.
Proof.
  intros Hm Hv Hv' k w. cbn [objects]. rewrite !lookup_insert.
  repeat case_decide; [by intros [= <-] .. | apply Hm].
Qed.

Lemma machine_ok_on_object (m : machine T) this f :
  machine_ok m →
  (∀ v, objects m !! this = Some v → rep_ok (f (storage m) v).2) →
  machine_ok (on_object m this f).
Proof.
  intros Hm Hf. unfold on_object.
  destruct (objects m !! this) as [v|] eqn:Hv; [|done].
  specialize (Hf v eq_refl). destruct (f (storage m) v) as [h' v'].
  by apply machine_ok_insert.
Qed.

(** C8. Every public operation of [Vector], called within its contract on
    a machine whose arrays all satisfy [size_ <= capacity_], leaves a
    machine whose arrays all satisfy it. *)
Theorem invariant_preserved (o : operation) (m : machine T) :
  machine_ok m → in_contract o m → machine_ok (step o m).
Proof.
  intros Hm Hc. destruct o; cbn [step in_contract] in *.
  - apply machine_ok_insert; [done | apply rep_ok_Vector_default].
  - pose proof (rep_ok_Vector_new (storage m) size Hc).
    destruct (Vector_new _ _) as [h' v]. by apply machine_ok_insert.
  - destruct (objects m !! other) as [vo|] eqn:Ho; [|done].
    pose proof (rep_ok_Vector_copy (storage m) vo (Hm _ _ Ho)).
    destruct (Vector_copy _ _) as [h' v]. by apply machine_ok_insert.
  - destruct (objects m !! other) as [vo|] eqn:Ho; [|done].
    destruct (rep_ok_Vector_move vo (Hm _ _ Ho)).
    destruct (Vector_move vo) as [v vo'].
    by apply machine_ok_insert2.
  - apply machine_ok_on_object; [done|]. intros v Hv.
    apply rep_ok_PushBack; eauto.
  - apply machine_ok_on_object; [done|]. intros v Hv.
    apply rep_ok_PushBack_value; eauto.
  - apply machine_ok_on_object; [done|]. intros v Hv.
    apply rep_ok_EmplaceBack; eauto.
  - apply machine_ok_on_object; [done|]. intros v Hv.
    apply rep_ok_Emplace; eauto.
  - apply machine_ok_on_object; [done|]. intros v Hv.
    apply rep_ok_Emplace; eauto.
  - apply machine_ok_on_object; [done|]. intros v Hv.
    apply rep_ok_Erase; eauto.
  - apply machine_ok_on_object; [done|]. intros v Hv.
    apply rep_ok_PopBack; eauto.
  - apply machine_ok_on_object; [done|]. intros v Hv.
    apply rep_ok_Resize; eauto.
  - apply machine_ok_on_object; [done|]. intros v Hv.
    apply rep_ok_Reserve; eauto.
  - unfold assign_copy. case_decide; [|done].
    destruct (objects m !! this) as [vt|] eqn:Ht; [|done].
    destruct (objects m !! rhs) as [vr|] eqn:Hr; [|done].
    pose proof (rep_ok_copy_assign_from (storage m) vt vr (Hm _ _ Ht) (Hm _ _ Hr)).
    destruct (copy_assign_from _ _ _) as [h' v]. by apply machine_ok_insert.
  - unfold assign_move.
    destruct (objects m !! this) as [vt|] eqn:Ht; [|done].
    destruct (objects m !! rhs) as [vr|] eqn:Hr; [|done].
    destruct (rep_ok_move_assign_from vt vr (Hm _ _ Ht) (Hm _ _ Hr)).
    destruct (move_assign_from vt vr) as [v vr'].
    by apply machine_ok_insert2.
  - unfold swap_objects.
    destruct (objects m !! this) as [vt|] eqn:Ht; [|done].
    destruct (objects m !! other) as [vo|] eqn:Ho; [|done].
    destruct (rep_ok_Swap vt vo (Hm _ _ Ht) (Hm _ _ Ho)).
    destruct (Swap vt vo) as [v vo'].
    by apply machine_ok_insert2.
Qed.

End Invariant.

(** * Copy assignment *)

Section CopyAssign.
Context {T : Type} `{Element T}.

Lemma block_size_uninitialized_copy_loop n (h : heap T) src dst c :
  block_size (uninitialized_copy_loop n h src dst) c = block_size h c.
Proof.
  revert h src dst. induction n as [|n IH]; intros; cbn [uninitialized_copy_loop];
    [done|]. rewrite IH. apply block_size_copy_construct.
Qed.

Lemma block_size_destroy_loop n (h : heap T) p c :
  block_size (destroy_loop n h p) c = block_size h c.
Proof.
  revert h p. induction n as [|n IH]; intros; cbn [destroy_loop]; [done|].
  rewrite IH. apply block_size_write.
Qed.

(** C10. Copy-assigning an array to itself changes nothing: the heap and
    every object, so the array's size, capacity, buffer address and
    elements, are what they were. *)
Theorem self_copy_assign_is_noop (m : machine T) (v : positive) :
  assign_copy m v v = m ∧ step (op_copy_assign v v) m = m.
Proof. unfold step, assign_copy. by rewrite decide_False by (intros ?; done). Qed.

(** Copy assignment into storage that is large enough. *)
Lemma copy_assign_from_in_place (h : heap T) this rhs :
  wf h this → wf h rhs → separate this rhs →
  size_ rhs ≤ capacity_ (data_ this) →
  let r := copy_assign_from h this rhs in
  data_ r.2 = data_ this ∧
  size_ r.2 = size_ rhs ∧
  (∀ i, 0 ≤ i < size_ rhs → at_ r.1 r.2 i = at_ h rhs i) ∧
  (∀ c, block_size r.1 c = block_size h c).
Proof.
  intros [[Hts Htc] Htb] [[Hrs Hrc] Hrb] Hsep Hfit.
  unfold copy_assign_from. rewrite decide_False by lia. cbn [fst snd].
  split; [done|]. split; [done|].
  unfold at_, copy_assign_prefix, uninitialized_copy_n, destroy_n, GetAddress, separate in *.
  cbn [data_ size_].
  rewrite !copy_assign_loop_eq.
  destruct (buffer_ (data_ this)) as [[a o]|] eqn:Ha; cycle 1.
  { (* no storage at all: both arrays are empty *)
    assert (size_ rhs = 0) as -> by lia. assert (size_ this = 0) as -> by lia.
    rewrite decide_False by lia. rewrite decide_False by lia.
    split; [intros; lia | done]. }
  destruct Htb as [-> Hta].
  destruct (buffer_ (data_ rhs)) as [[b o]|] eqn:Hb; cycle 1.
  { (* the source has no storage: it is empty *)
    assert (size_ rhs = 0) as Hz by lia. split; [intros; lia|]. intros c.
    repeat case_decide; rewrite ?block_size_destroy_loop,
      ?block_size_uninitialized_copy_loop; done. }
  destruct Hrb as [-> Hrb]. cbn [ptr_add].
  case_decide as Hlonger.
  - (* this array is longer: assign the prefix, destroy the rest *)
    destruct (uninitialized_copy_loop_spec (Z.to_nat (size_ rhs)) h b 0 a 0)
      as (C1 & C2 & C3); [done | lia | |].
    { exists (Z.to_nat (capacity_ (data_ this))). split; [done | lia]. }
    set (h1 := uninitialized_copy_loop _ h _ _) in *.
    destruct (destroy_loop_spec (Z.to_nat (wrap (size_ this - size_ rhs))) h1 a
                (0 + size_ rhs)) as (_ & D2 & D3).
    split.
    + intros i Hi. rewrite D2 by lia. apply C1. lia.
    + intros c. by rewrite D3, C3.
  - (* the source is at least as long: assign the prefix, construct the rest *)
    destruct (uninitialized_copy_loop_spec (Z.to_nat (size_ this)) h b 0 a 0)
      as (C1 & C2 & C3); [done | lia | |].
    { exists (Z.to_nat (capacity_ (data_ this))). split; [done | lia]. }
    set (h1 := uninitialized_copy_loop _ h _ _) in *.
    case_decide as Hmore.
    + assert (Hw : wrap (size_ rhs - size_ this) = size_ rhs - size_ this).
      { apply wrap_small. unfold SIZE_BITS in *. lia. }
      rewrite Hw.
      destruct (uninitialized_copy_loop_spec (Z.to_nat (size_ rhs - size_ this)) h1
                  b (0 + size_ this) a (0 + size_ this))
        as (E1 & E2 & E3); [done | lia | |].
      { exists (Z.to_nat (capacity_ (data_ this))). rewrite C3. split; [done | lia]. }
      split.
      * intros i Hi. destruct (decide (i < size_ this)) as [Hlt|Hge].
        -- rewrite E2 by lia. apply C1. lia.
        -- replace (0 + i) with (0 + size_ this + (i - size_ this)) by lia.
           rewrite E1 by lia. apply C2. intros ?. done.
      * intros c. by rewrite E3, C3.
    + split; [|done]. intros i Hi. apply C1. lia.
Qed.

(** C7. When the source's size does not exceed the destination's
    capacity, copy assignment keeps the destination's buffer address and
    capacity and allocates nothing; the destination's size becomes the
    source's and its elements become equal to the source's. *)
Theorem copy_assign_reuses_storage (m : machine T) (this rhs : positive) vt vr :
  objects m !! this = Some vt →
  objects m !! rhs = Some vr →
  wf (storage m) vt → wf (storage m) vr →
  (this ≠ rhs → separate vt vr) →
  Size vr ≤ Capacity vt →
  let m' := assign_copy m this rhs in
  ∃ vt', objects m' !! this = Some vt' ∧
    Capacity vt' = Capacity vt ∧
    begin vt' = begin vt ∧
    Size vt' = Size vr ∧
    (∀ i, 0 ≤ i < Size vr → at_ (storage m') vt' i = at_ (storage m) vr i) ∧
    (∀ a, block_size (storage m') a = block_size (storage m) a).
Proof.
  intros Ht Hr Hwt Hwr Hsep Hfit. unfold assign_copy. case_decide as Hne.
  - rewrite Ht, Hr.
    destruct (copy_assign_from_in_place (storage m) vt vr Hwt Hwr (Hsep Hne) Hfit)
      as (Hd & Hs & He & Hb).
    destruct (copy_assign_from (storage m) vt vr) as [h' vt']. cbn [fst snd] in *.
    exists vt'. cbn [objects storage]. rewrite lookup_insert_eq.
    unfold Capacity, begin, Size. rewrite Hd. done.
  - assert (this = rhs) as -> by (by destruct (decide (this = rhs))).
    exists vt. simplify_eq. done.
Qed.

End CopyAssign.

(** * Reserve and Resize *)

Section Resize.
Context {T : Type} `{Element T}.



End Resize.

(** * Insertion and erasure *)

Section InsertErase.
Context {T : Type} `{Element T}.

(** Shifting [n] elements of a block one slot to the right, last first. *)
Lemma move_backward_loop_spec n (h : heap T) b l l' :
  l' = l + 1 → 0 ≤ l - Z.of_nat n →
  (∃ m, block_size h b = Some m ∧ l' < Z.of_nat m) →
  let h' := move_backward_loop n h (Some (b, l)) (Some (b, l')) in
  (∀ k, l - Z.of_nat n < k ≤ l → read h' (Some (b, k)) = read h (Some (b, k - 1))) ∧
  (∀ c k, (c = b → ¬ (l - Z.of_nat n ≤ k ≤ l)) →
        read h' (Some (c, k)) = read h (Some (c, k))) ∧
  (∀ c, block_size h' c = block_size h c).
Proof.
  revert h l l'. induction n as [|n IH]; intros h l l' -> Hlo (m & Hm & Hhi);
    cbn [move_backward_loop ptr_add].
  - split_and!; [intros; lia | done | done].
  - set (h1 := move_assign h (Some (b, l + 1 + -1)) (Some (b, l + -1))).
    assert (Hbs : ∀ c, block_size h1 c = block_size h c).
    { intros c. unfold h1. apply block_size_move_construct. }
    destruct (IH h1 (l + -1) (l + 1 + -1)) as (IH1 & IH2 & IH3); [lia | lia | |].
    { exists m. rewrite Hbs. split; [done | lia]. }
    split_and!.
    + intros k Hk. destruct (decide (k = l)) as [->|Hkl].
      * rewrite IH2 by lia. unfold h1.
        replace (l + 1 + -1) with l by lia. replace (l + -1) with (l - 1) by lia.
        apply read_move_construct_dst. exists m. split; [done | lia].
      * rewrite IH1 by lia. unfold h1.
        apply read_move_construct_other; intros [=]; lia.
    + intros c k Hc. rewrite IH2 by (intros ->; specialize (Hc eq_refl); lia).
      unfold h1. apply read_move_construct_other;
        intros [= -> ->]; apply Hc; [done | lia | done | lia].
    + intros c. by rewrite IH3.
Qed.




(** What [Emplace] does at position [begin() + d], except in the case
    treated next ([d = size_] with spare capacity in a non-empty array). *)
Lemma Emplace_spec (h : heap T) v d x :
  wf h v → size_ v < 2 ^ (SIZE_BITS - 1) → 0 ≤ d ≤ size_ v →
  d < size_ v ∨ size_ v = capacity_ (data_ v) ∨ size_ v = 0 →
  let r := (Emplace h v (ptr_add (begin v) d) (Some x)).1 in
  wf r.1 r.2 ∧
  size_ r.2 = size_ v + 1 ∧
  (∀ i, 0 ≤ i < d → at_ r.1 r.2 i = at_ h v i) ∧
  at_ r.1 r.2 d = Some x ∧
  (∀ i, d < i ≤ size_ v → at_ r.1 r.2 i = at_ h v (i - 1)).
Proof.
  intros [[Hsz Hcap] Hbuf] Hlim Hd Hcase.
  assert (Hw : wrap (size_ v + 1) = size_ v + 1).
  { apply wrap_small. unfold SIZE_BITS in *. lia. }
  assert (Hwd : wrap d = d).
  { apply wrap_small. unfold SIZE_BITS in *. lia. }
  assert (Hpd : ptr_diff (ptr_add (buffer_ (data_ v)) d) (buffer_ (data_ v)) = d).
  { destruct (buffer_ (data_ v)) as [[b o]|]; cbn; lia. }
  assert (Hep : ptr_diff (ptr_add (buffer_ (data_ v)) (size_ v))
                  (ptr_add (buffer_ (data_ v)) d) = size_ v - d).
  { destruct (buffer_ (data_ v)) as [[b o]|]; cbn; lia. }
  unfold Emplace, begin, end_, Capacity, GetAddress. cbn [data_ buffer_].
  rewrite Hpd, Hep, Hwd, Hw. case_decide as Hfull.
  - (* the array is full: relocate around the new element *)
    destruct (grown_capacity_bounds (size_ v)) as [Hg _]; [lia|].
    unfold RawMemory_new, Allocate. case_decide as Hg0; [|lia].
    set (a := fresh (dom h)).
    set (n := grown_capacity (size_ v)) in *.
    set (h1 := <[a := replicate (Z.to_nat n) None]> h).
    unfold RawMemory_Swap, RawMemory_plus, GetAddress, RawMemory_delete.
    cbn [buffer_ capacity_ ptr_add data_ fst snd].
    set (h2 := construct_at h1 (Some (a, 0 + d)) x).
    assert (Hbs2 : ∀ c, block_size h2 c =
              if decide (a = c) then Some (Z.to_nat n) else block_size h c).
    { intros c. unfold h2, construct_at. rewrite block_size_write.
      unfold h1. rewrite block_size_insert, length_replicate. done. }
    assert (Hnew : read h2 (Some (a, d)) = Some x).
    { unfold h2, construct_at. rewrite Z.add_0_l. apply read_write_eq.
      exists (Z.to_nat n). unfold h1. rewrite block_size_insert, length_replicate.
      rewrite decide_True by done. split; [done | lia]. }
    assert (Hold2 : ∀ c l, c ≠ a → read h2 (Some (c, l)) = read h (Some (c, l))).
    { intros c l Hc. unfold h2, construct_at. rewrite read_write_ne by congruence.
      unfold h1. by apply read_insert_ne. }
    destruct (buffer_ (data_ v)) as [[b o]|] eqn:Hb.
    + destruct Hbuf as [-> Hbs]. cbn [ptr_add].
      assert (Hba : b ≠ a) by (eapply fresh_ne; eauto).
      match goal with |- context [destroy_n ?hh _ _] => set (h3 := hh) end.
      assert (Hrel : (∀ k, 0 ≤ k < d → read h3 (Some (a, k)) = read h (Some (b, k))) ∧
                     read h3 (Some (a, d)) = Some x ∧
                     (∀ k, d < k ≤ size_ v →
                        read h3 (Some (a, k)) = read h (Some (b, k - 1))) ∧
                     (∀ c, block_size h3 c = block_size h2 c)).
      { assert (Hdst1 : ∃ m, block_size h2 a = Some m ∧
                  0 + Z.of_nat (Z.to_nat d) ≤ Z.of_nat m).
        { exists (Z.to_nat n). rewrite Hbs2, decide_True by done. split; [done | lia]. }
        unfold h3. destruct relocate_by_move.
        - unfold uninitialized_move_n.
          destruct (uninitialized_move_loop_spec (Z.to_nat d) h2 b 0 a 0)
            as (M1 & M2 & M3); [done | lia | done |].
          set (h2' := uninitialized_move_loop (Z.to_nat d) h2 _ _) in *.
          destruct (uninitialized_move_loop_spec (Z.to_nat (size_ v - d)) h2'
                      b (0 + d) a (0 + d + 1))
            as (N1 & N2 & N3); [done | lia | |].
          { exists (Z.to_nat n). rewrite M3, Hbs2, decide_True by done.
            split; [done | lia]. }
          split_and!.
          + intros k Hk. rewrite N2; [| by intros -> | lia].
            specialize (M1 k). rewrite !Z.add_0_l in M1.
            rewrite M1 by lia. by apply Hold2.
          + rewrite N2; [| by intros -> | lia]. rewrite M2; [done | by intros -> | lia].
          + intros k Hk. replace k with (0 + d + 1 + (k - d - 1)) at 1 by lia.
            rewrite N1 by lia. replace (0 + d + (k - d - 1)) with (k - 1) by lia.
            rewrite M2; [| lia | by intros ->]. by apply Hold2.
          + intros c. by rewrite N3, M3.
        - unfold uninitialized_copy_n.
          destruct (uninitialized_copy_loop_spec (Z.to_nat d) h2 b 0 a 0)
            as (M1 & M2 & M3); [done | lia | done |].
          set (h2' := uninitialized_copy_loop (Z.to_nat d) h2 _ _) in *.
          destruct (uninitialized_copy_loop_spec (Z.to_nat (size_ v - d)) h2'
                      b (0 + d) a (0 + d + 1))
            as (N1 & N2 & N3); [done | lia | |].
          { exists (Z.to_nat n). rewrite M3, Hbs2, decide_True by done.
            split; [done | lia]. }
          split_and!.
          + intros k Hk. rewrite N2 by lia.
            specialize (M1 k). rewrite !Z.add_0_l in M1.
            rewrite M1 by lia. by apply Hold2.
          + rewrite N2 by lia. rewrite M2; [done | lia].
          + intros k Hk. replace k with (0 + d + 1 + (k - d - 1)) at 1 by lia.
            rewrite N1 by lia. replace (0 + d + (k - d - 1)) with (k - 1) by lia.
            rewrite M2 by (by intros ->). by apply Hold2.
          + intros c. by rewrite N3, M3. }
      destruct Hrel as (R1 & R2 & R4 & R3).
      unfold destroy_n. cbn [Deallocate].
      destruct (destroy_loop_spec (Z.to_nat (capacity_ (data_ v))) h3 b 0)
        as (_ & D2 & D3).
      set (h4 := destroy_loop _ h3 _) in *.
      assert (Hfin : ∀ l, read (delete b h4) (Some (a, l)) = read h3 (Some (a, l))).
      { intros l. rewrite read_delete_ne by done. apply D2. intros ->. done. }
      unfold at_. cbn [data_ buffer_ ptr_add]. rewrite Hb. cbn [ptr_add].
      refine (conj _ (conj _ (conj _ (conj _ _)))).
      * split; [unfold invariant; cbn [data_ size_ buffer_ capacity_];
                unfold SIZE_BITS in *; lia|].
        cbn [data_ size_ buffer_ capacity_]. split; [done|].
        rewrite block_size_delete_ne by done. rewrite D3, R3, Hbs2.
        by rewrite decide_True.
      * done.
      * intros i Hi. rewrite !Z.add_0_l, Hfin. by apply R1.
      * by rewrite Z.add_0_l, Hfin.
      * intros i Hi. rewrite !Z.add_0_l, Hfin. by apply R4.
    + (* a null old buffer: the array is empty *)
      assert (Hz : size_ v = 0) by lia. assert (d = 0) as -> by lia.
      rewrite Hz. cbn [ptr_add].
      match goal with
      | |- context [destroy_n ?hh _ _] =>
          replace hh with h2 by (by destruct relocate_by_move)
      end.
      unfold destroy_n. rewrite destroy_loop_null. cbn [Deallocate].
      unfold at_. cbn [data_ buffer_ ptr_add].
      refine (conj _ (conj _ (conj _ (conj _ _)))).
      * split; [unfold invariant; cbn [data_ size_ buffer_ capacity_];
                unfold SIZE_BITS in *; lia|].
        cbn [data_ size_ buffer_ capacity_]. split; [done|].
        by rewrite Hbs2, decide_True.
      * done.
      * intros i Hi. lia.
      * done.
      * intros i Hi. lia.
  - (* spare capacity *)
    destruct (buffer_ (data_ v)) as [[b o]|] eqn:Hb; [|lia].
    destruct Hbuf as [-> Hbs].
    assert (Hm : block_size h b = Some (Z.to_nat (capacity_ (data_ v)))) by done.
    case_decide as Hne; cbn [fst snd].
    + (* a non-empty array: shift the tail to the right *)
      assert (Hlt : d < size_ v) by lia.
      cbn [ptr_add]. unfold move_backward, move_assign_value. cbn [ptr_diff].
      set (h1 := move_construct h (Some (b, 0 + size_ v)) (Some (b, 0 + size_ v + -1))).
      assert (Hbs1 : ∀ c, block_size h1 c = block_size h c).
      { intros c. unfold h1. apply block_size_move_construct. }
      destruct (move_backward_loop_spec (Z.to_nat (0 + size_ v + -1 - (0 + d))) h1 b
                  (0 + size_ v + -1) (0 + size_ v))
        as (B1 & B2 & B3); [lia | lia | |].
      { exists (Z.to_nat (capacity_ (data_ v))). rewrite Hbs1. split; [done | lia]. }
      set (h2 := move_backward_loop _ h1 _ _) in *.
      unfold at_. cbn [data_]. rewrite Hb. cbn [ptr_add].
      refine (conj _ (conj _ (conj _ (conj _ _)))).
      * split; [unfold invariant; cbn [data_ size_]; lia|].
        cbn [data_]. rewrite Hb. split; [done|].
        by rewrite block_size_write, B3, Hbs1.
      * done.
      * intros i Hi. rewrite read_write_ne by (intros [=]; lia).
        rewrite B2 by lia. unfold h1.
        apply read_move_construct_other; intros [=]; lia.
      * apply read_write_eq. exists (Z.to_nat (capacity_ (data_ v))).
        rewrite B3, Hbs1. split; [done | lia].
      * intros i Hi. rewrite read_write_ne by (intros [=]; lia).
        destruct (decide (i = size_ v)) as [->|Hi'].
        -- rewrite B2 by lia. unfold h1.
           replace (0 + (size_ v - 1)) with (0 + size_ v + -1) by lia.
           apply read_move_construct_dst.
           exists (Z.to_nat (capacity_ (data_ v))). split; [done | lia].
        -- rewrite B1 by lia. unfold h1.
           replace (0 + i - 1) with (0 + (i - 1)) by lia.
           apply read_move_construct_other; intros [=]; lia.
    + (* an empty array: construct in slot 0 *)
      assert (Hz : size_ v = 0) by (by destruct (decide (size_ v = 0))).
      assert (d = 0) as -> by lia.
      unfold at_. cbn [data_]. rewrite Hb. cbn [ptr_add].
      refine (conj _ (conj _ (conj _ (conj _ _)))).
      * split; [unfold invariant; cbn [data_ size_]; lia|].
        cbn [data_]. rewrite Hb. split; [done|].
        unfold construct_at. by rewrite block_size_write.
      * done.
      * intros i Hi. lia.
      * unfold construct_at. apply read_write_eq.
        exists (Z.to_nat (capacity_ (data_ v))). split; [done | lia].
      * intros i Hi. lia.
Qed.



Lemma elements_ext (h h' : heap T) v v' :
  size_ v' = size_ v →
  (∀ i, 0 ≤ i < size_ v → at_ h' v' i = at_ h v i) →
  elements h' v' = elements h v.
Proof.
  intros Hs He. unfold elements. rewrite Hs.
  apply list_fmap_ext. intros i k Hk. apply lookup_seq in Hk as [-> Hk].
  apply He. lia.
Qed.



End InsertErase.

(** * Concrete runs *)

Section ConcreteRuns.

Example scenario_progression : Scenario.capacity_progression = [0; 1; 2; 4].
Proof. vm_compute. reflexivity. Qed.

(** C9 as stated fails: the capacities before the first append and after
    each of the three are 0, 1, 2, 4, not 1, 1, 2, 4. *)
Lemma scenario_progression_not_1_1_2_4 : ¬ Scenario.holds_with [1; 1; 2; 4].
Proof.
  intros (_ & _ & _ & Hcaps & _). vm_compute in Hcaps. discriminate.
Qed.

(** C9, amended. From an empty [Vector<int>], appending 1, 2, 3 gives
    [1,2,3] with size 3 and capacity 4, the capacity going 0, 1, 2, 4;
    [Insert(begin()+1, 9)] gives [1,9,2,3]; [Erase(begin()+2)] gives
    [1,9,3]; [PopBack()] gives [1,9]. *)
Theorem scenario_holds : Scenario.holds_with [0; 1; 2; 4].
Proof.
  unfold Scenario.holds_with. split_and!; try (vm_compute; reflexivity).
  right. vm_compute. reflexivity.
Qed.

(** C6 fails on [Vector<int>]: [Resize] default-initialises the new
    elements, which for [int] initialises nothing, where the constructor
    [Vector(size_t)] value-initialises them to zero. *)
Theorem Resize_int_leaves_new_elements_indeterminate :
  Size ResizeRun.resized.2 = 2 ∧
  elements ResizeRun.resized.1 ResizeRun.resized.2 = [None; None] ∧
  elements ResizeRun.constructed.1 ResizeRun.constructed.2 = [Some 0; Some 0].
Proof. split_and!; vm_compute; reflexivity. Qed.

(** Outside the contract the invariant can break: [PopBack] on an empty
    array wraps [size_] around, and a full array of [2^63] elements would
    grow to capacity zero. *)
Example PopBack_on_empty_wraps :
  size_ (PopBack (∅ : heap Z) Vector_default).2 = 2 ^ SIZE_BITS - 1.
Proof. vm_compute. reflexivity. Qed.

Example grown_capacity_wraps : grown_capacity (2 ^ (SIZE_BITS - 1)) = 0.
Proof. vm_compute. reflexivity. Qed.

(** [operator=(Vector&&)] touches no storage at all. *)
Lemma assign_move_storage {T : Type} (m : machine T) (this rhs : positive) :
  storage (assign_move m this rhs) = storage m.
Proof.
  unfold assign_move.
  destruct (objects m !! this) as [vt|]; [|done].
  destruct (objects m !! rhs) as [vr|]; [|done].
  by destruct (move_assign_from vt vr) as [vt' vr'].
Qed.

(** Between arrays with different buffers the destination takes the
    source's buffer, capacity and size, and the source is left empty. *)
Lemma move_assign_from_adopts (this rhs : Vector) :
  buffer_ (data_ this) ≠ buffer_ (data_ rhs) →
  move_assign_from this rhs =
    ({| data_ := {| buffer_ := buffer_ (data_ rhs); capacity_ := capacity_ (data_ rhs) |};
        size_ := size_ rhs |},
     {| data_ := {| buffer_ := nullptr; capacity_ := 0 |}; size_ := 0 |}).
Proof.
  intros Hne. unfold move_assign_from, RawMemory_move_assign, GetAddress.
  by rewrite !decide_True by done.
Qed.

(** C3 fails on [a = std::move(b)] with [a = [1]] and [b = [2]]: [a]
    takes [b]'s buffer and [b] is left empty, but the heap is what it was:
    the block [a] owned is still allocated, its element was not destroyed,
    and no array refers to it any more. *)
Theorem move_assign_keeps_destination_storage :
  objects MoveAssignRun.two_arrays !! MoveAssignRun.a =
    Some {| data_ := {| buffer_ := Some (1%positive, 0); capacity_ := 1 |}; size_ := 1 |} ∧
  objects MoveAssignRun.moved !! MoveAssignRun.a =
    Some {| data_ := {| buffer_ := Some (2%positive, 0); capacity_ := 1 |}; size_ := 1 |} ∧
  objects MoveAssignRun.moved !! MoveAssignRun.b =
    Some {| data_ := {| buffer_ := nullptr; capacity_ := 0 |}; size_ := 0 |} ∧
  storage MoveAssignRun.moved = storage MoveAssignRun.two_arrays ∧
  storage MoveAssignRun.moved !! 1%positive = Some [Some 1].
Proof. split_and!; vm_compute; reflexivity. Qed.

(** C2 fails on [Vector<std::unique_ptr<int>>] holding one pointer [p1]
    with capacity 2: [Insert(end(), p2)] moves [p1] out of the last
    element and overwrites the copy, so the array becomes [null, p2], and
    [Erase] of the inserted element leaves [null], not [p1]. *)
Theorem insert_at_end_then_erase_loses_last_element :
  elements InsertAtEndRun.original.1 InsertAtEndRun.original.2 = [Some (owning 1)] ∧
  Size InsertAtEndRun.original.2 = 1 ∧ Capacity InsertAtEndRun.original.2 = 2 ∧
  InsertAtEndRun.position = ptr_add (begin InsertAtEndRun.original.2) 1 ∧
  elements InsertAtEndRun.after_insert.1 InsertAtEndRun.after_insert.2 =
    [Some null_ptr; Some (owning 2)] ∧
  elements InsertAtEndRun.after_erase.1 InsertAtEndRun.after_erase.2 = [Some null_ptr].
Proof. split_and!; vm_compute; reflexivity. Qed.

End ConcreteRuns.

(** * The theorems at concrete inputs *)

Section Witnesses.

Lemma appends_size_and_elements_witness :
  let cs := [via_PushBack 7; via_EmplaceBack 8; via_PushBack_value 9] in
  Z.of_nat (length cs) ≤ 2 ^ (SIZE_BITS - 1) ∧
  let st := run_appends ((∅ : heap Z), Vector_default) cs in
  Size st.2 = Z.of_nat (length cs) ∧
  ∀ (i : nat) x, (appended <$> cs) !! i = Some x →
    at_ st.1 st.2 (Z.of_nat i) = Some x.
Proof.
  assert (Hlen : Z.of_nat (length [via_PushBack 7; via_EmplaceBack 8;
                                   via_PushBack_value 9]) ≤ 2 ^ (SIZE_BITS - 1)).
  { unfold SIZE_BITS. simpl. lia. }
  split; [exact Hlen|].
  exact (appends_size_and_elements (∅ : heap Z) _ Hlen).
Defined.

Lemma capacity_growth_witness :
  let v := Vector_default in
  let before := [via_PushBack 1] in
  let c := via_PushBack 2 in
  invariant v ∧
  size_ v + Z.of_nat (length before) < 2 ^ (SIZE_BITS - 1) ∧
  let st := run_appends ((∅ : heap Z), v) before in
  let st' := run_append st c in
  Capacity st.2 ≤ Capacity st'.2 ∧
  (Capacity st.2 < Capacity st'.2 ↔ Capacity st.2 < Size st.2 + 1) ∧
  (Capacity st.2 < Capacity st'.2 → Capacity st'.2 = Z.max 1 (2 * Capacity st.2)).
Proof.
  assert (Hinv : invariant Vector_default).
  { unfold invariant, SIZE_BITS. simpl. lia. }
  assert (Hlim : size_ Vector_default + Z.of_nat (length [via_PushBack 1])
                 < 2 ^ (SIZE_BITS - 1)).
  { unfold SIZE_BITS. simpl. lia. }
  split; [exact Hinv|]. split; [exact Hlim|].
  exact (capacity_growth (∅ : heap Z) Vector_default [via_PushBack 1]
           (via_PushBack 2) Hinv Hlim).
Defined.

Lemma append_throw_leaves_array_witness :
  let h := (Scenario.after 1).1 in
  let v := (Scenario.after 1).2 in
  Size v = Capacity v ∧
  EmplaceBack h v None = (h, v, Threw) ∧
  PushBack h v None = (h, v, Threw) ∧
  PushBack_value h v None = (h, v, Threw).
Proof.
  assert (Hfull : Size (Scenario.after 1).2 = Capacity (Scenario.after 1).2).
  { vm_compute. reflexivity. }
  split; [exact Hfull|].
  exact (append_throw_leaves_array (Scenario.after 1).1 (Scenario.after 1).2 Hfull).
Defined.

Lemma copy_assign_reuses_storage_witness :
  let m := CopyAssignRun.both in
  let m' := assign_copy m CopyAssignRun.dst CopyAssignRun.src in
  ∃ vt', objects m' !! CopyAssignRun.dst = Some vt' ∧
    Capacity vt' = Capacity CopyAssignRun.vdst ∧
    begin vt' = begin CopyAssignRun.vdst ∧
    Size vt' = Size CopyAssignRun.vsrc ∧
    (∀ i, 0 ≤ i < Size CopyAssignRun.vsrc →
          at_ (storage m') vt' i = at_ (storage m) CopyAssignRun.vsrc i) ∧
    (∀ a, block_size (storage m') a = block_size (storage m) a).
Proof.
  apply (copy_assign_reuses_storage CopyAssignRun.both
           CopyAssignRun.dst CopyAssignRun.src CopyAssignRun.vdst CopyAssignRun.vsrc).
  - vm_compute. reflexivity.
  - vm_compute. reflexivity.
  - split; [unfold invariant, SIZE_BITS; simpl; lia|].
    split; vm_compute; reflexivity.
  - split; [unfold invariant, SIZE_BITS; simpl; lia|].
    split; vm_compute; reflexivity.
  - intros _. vm_compute. discriminate.
  - vm_compute. discriminate.
Defined.

Lemma invariant_preserved_witness :
  machine_ok InvariantRun.three_zeros ∧
  in_contract (op_PopBack InvariantRun.vec) InvariantRun.three_zeros ∧
  machine_ok (step (op_PopBack InvariantRun.vec) InvariantRun.three_zeros).
Proof.
  assert (Hok : machine_ok InvariantRun.three_zeros).
  { apply invariant_preserved.
    - intros n v Hv. cbn in Hv. by rewrite lookup_empty in Hv.
    - unfold in_contract, is_size_t, SIZE_BITS. lia. }
  assert (Hc : in_contract (op_PopBack InvariantRun.vec) InvariantRun.three_zeros).
  { intros v Hv. vm_compute in Hv. injection Hv as <-. simpl. lia. }
  split; [exact Hok|]. split; [exact Hc|].
  exact (invariant_preserved (op_PopBack InvariantRun.vec) InvariantRun.three_zeros Hok Hc).
Defined.

End Witnesses.

(** * Which blocks an algorithm touches *)

Section Frames.
Context {T : Type} `{Element T}.

Lemma lookup_write_ne (h : heap T) p s c :
  blk p ≠ Some c → write h p s !! c = h !! c.
Proof.
  unfold write. destruct p as [[a i]|]; [|done]. cbn. intros Hne.
  case_decide; [|done]. apply lookup_alter_ne. congruence.
Qed.



Lemma lookup_uninitialized_copy_loop_ne n (h : heap T) first d_first c :
  blk d_first ≠ Some c →
  uninitialized_copy_loop n h first d_first !! c = h !! c.
Proof.
  revert h first d_first. induction n as [|n IH]; intros h first d_first Hd;
    cbn [uninitialized_copy_loop]; [done|].
  rewrite IH by (by rewrite blk_ptr_add). unfold copy_construct.
  by apply lookup_write_ne.
Qed.

Lemma lookup_destroy_loop_ne n (h : heap T) first c :
  blk first ≠ Some c → destroy_loop n h first !! c = h !! c.
Proof.
  revert h first. induction n as [|n IH]; intros h first Hf;
    cbn [destroy_loop]; [done|].
  rewrite IH by (by rewrite blk_ptr_add). by apply lookup_write_ne.
Qed.





(** Releasing a block forgets whatever was done inside it. *)
Lemma delete_frame (h h' : heap T) a :
  (∀ c, c ≠ a → h' !! c = h !! c) → delete a h' = delete a h.
Proof.
  intros Hf. apply map_eq. intros c. rewrite !lookup_delete.
  case_decide; [done | by apply Hf].
Qed.

End Frames.

(** * What each operation does to storage *)

Section StorageEffect.
Context {T : Type} `{Element T}.

Lemma blk_Some a i : blk (Some (a, i)) = Some a.
Proof. done. Qed.

Lemma lookup_Deallocate_ne (h : heap T) p c :
  blk p ≠ Some c → Deallocate h p !! c = h !! c.
Proof.
  destruct p as [[a i]|]; cbn; [|done]. intros Hne.
  apply lookup_delete_ne. congruence.
Qed.

Lemma lookup_Deallocate_eq (h : heap T) p b :
  blk p = Some b → Deallocate h p !! b = None.
Proof.
  destruct p as [[a i]|]; cbn; [|done]. intros [= ->]. apply lookup_delete_eq.
Qed.





(** An operation that only writes into the array's own buffer. *)
Lemma storage_effect_in_place (h h' : heap T) v v' :
  buffer_ (data_ v') = buffer_ (data_ v) →
  (∀ c, blk (buffer_ (data_ v)) ≠ Some c → h' !! c = h !! c) →
  storage_effect h v h' v'.
Proof. intros Hb Hf. split; [intros c Hc _; by apply Hf | by left]. Qed.

(** The shared shape of every reallocation: a fresh buffer, written to and
    read into, then the old buffer released. *)
Lemma storage_effect_relocated (h hm : heap T) v n size' :
  n ≠ 0 →
  let a := fresh (dom h) in
  (∀ c, blk (buffer_ (data_ v)) ≠ Some c → c ≠ a → hm !! c = h !! c) →
  storage_effect h v (Deallocate hm (buffer_ (data_ v)))
    {| data_ := {| buffer_ := Some (a, 0); capacity_ := n |}; size_ := size' |}.
Proof.
  intros Hn a Hf. split.
  - intros c Hc Hc'. cbn in Hc'. rewrite lookup_Deallocate_ne by done.
    apply Hf; [done | congruence].
  - right. split.
    + intros a' [= <-]. apply fresh_unused.
    + intros b Hb. by apply lookup_Deallocate_eq.
Qed.










End StorageEffect.

(** * Runs of mutating calls *)

Section MutationRuns.
Context {T : Type} `{Element T}.

Lemma PopBack_spec (h : heap T) v :
  wf h v → 0 < size_ v →
  let r := PopBack h v in
  wf r.1 r.2 ∧
  size_ r.2 = size_ v - 1 ∧
  data_ r.2 = data_ v ∧
  (∀ i, 0 ≤ i < size_ v - 1 → at_ r.1 r.2 i = at_ h v i) ∧
  at_ r.1 r.2 (size_ v - 1) = None.
Proof.
  intros [[Hsz Hcap] Hbuf] Hpos.
  assert (Hw : wrap (size_ v - 1) = size_ v - 1).
  { apply wrap_small. unfold SIZE_BITS in *. lia. }
  unfold PopBack, RawMemory_plus, destroy_n. cbn [fst snd]. rewrite Hw.
  destruct (buffer_ (data_ v)) as [[b o]|] eqn:Hb; [|lia].
  destruct Hbuf as [-> Hbs]. cbn [ptr_add].
  destruct (destroy_loop_spec (Z.to_nat 1) h b (0 + (size_ v - 1))) as (D1 & D2 & D3).
  unfold at_. cbn [data_]. rewrite Hb. cbn [ptr_add].
  refine (conj _ (conj _ (conj _ (conj _ _)))).
  - split; [unfold invariant; cbn [data_ size_]; lia|].
    cbn [data_]. rewrite Hb. split; [done|]. by rewrite D3.
  - done.
  - done.
  - intros i Hi. apply D2. lia.
  - specialize (D1 0). rewrite Z.add_0_r in D1. apply D1. lia.
Qed.







(** The destructor releases the buffer; what it did to the elements goes
    with the block. *)
Lemma Vector_delete_Deallocate (h : heap T) v :
  Vector_delete h v = Deallocate h (buffer_ (data_ v)).
Proof.
  unfold Vector_delete, RawMemory_delete, destroy_n, GetAddress.
  destruct (buffer_ (data_ v)) as [[a o]|]; cbn [Deallocate].
  - apply delete_frame. intros c Hc. apply lookup_destroy_loop_ne.
    rewrite blk_Some. congruence.
  - apply destroy_loop_null.
Qed.



End MutationRuns.

(** * Construction, copy and move *)

Section Construction.
Context {T : Type} `{Element T}.

Lemma read_lookup_eq (h h' : heap T) a i :
  h' !! a = h !! a → read h' (Some (a, i)) = read h (Some (a, i)).
Proof. intros Heq. unfold read. by rewrite Heq. Qed.

Lemma block_size_lookup_eq (h h' : heap T) a :
  h' !! a = h !! a → block_size h' a = block_size h a.
Proof. intros Heq. unfold block_size. by rewrite Heq. Qed.

(** An array whose block is untouched is the same array. *)
Lemma same_block_same_array (h h' : heap T) v :
  wf h v →
  (∀ a, blk (buffer_ (data_ v)) = Some a → h' !! a = h !! a) →
  wf h' v ∧ elements h' v = elements h v.
Proof.
  intros [Hinv Hbuf] Hsame.
  destruct (buffer_ (data_ v)) as [[a o]|] eqn:Hb.
  - specialize (Hsame a eq_refl). destruct Hbuf as [-> Hbs]. split.
    + split; [done|]. rewrite Hb. split; [done|].
      by rewrite (block_size_lookup_eq h h' a).
    + apply elements_ext; [done|]. intros i Hi. unfold at_. rewrite Hb.
      by apply read_lookup_eq.
  - split.
    + split; [done|]. by rewrite Hb.
    + apply elements_ext; [done|]. intros i Hi. unfold at_. by rewrite Hb.
Qed.

Lemma live_ne_fresh (h : heap T) c b : h !! c = Some b → fresh (dom h) ≠ c.
Proof. intros Hc <-. by rewrite fresh_unused in Hc. Qed.


Lemma Vector_copy_spec (h : heap T) other :
  wf h other →
  let r := Vector_copy h other in
  wf r.1 r.2 ∧
  size_ r.2 = size_ other ∧ capacity_ (data_ r.2) = size_ other ∧
  (∀ i, 0 ≤ i < size_ other → at_ r.1 r.2 i = at_ h other i) ∧
  (∀ c b, h !! c = Some b → r.1 !! c = Some b) ∧
  (∀ a, blk (buffer_ (data_ r.2)) = Some a → h !! a = None).
Proof.
  intros [[Hsz Hcap] Hbuf]. unfold Vector_copy, RawMemory_new, Allocate.
  case_decide as Hz; cbn [fst snd]; unfold GetAddress, uninitialized_copy_n;
    cbn [buffer_].
  - set (a := fresh (dom h)).
    set (h1 := <[a := replicate (Z.to_nat (size_ other)) None]> h).
    destruct (buffer_ (data_ other)) as [[b o]|] eqn:Hb; [|lia].
    destruct Hbuf as [-> Hbs].
    assert (Hba : b ≠ a) by (eapply fresh_ne; eauto).
    destruct (uninitialized_copy_loop_spec (Z.to_nat (size_ other)) h1 b 0 a 0)
      as (C1 & C2 & C3); [done | lia | |].
    { exists (Z.to_nat (size_ other)). unfold h1.
      rewrite block_size_insert, length_replicate.
      rewrite decide_True by done. split; [done | lia]. }
    refine (conj _ (conj _ (conj _ (conj _ (conj _ _))))).
    + split; [unfold invariant; cbn [data_ size_ capacity_]; lia|].
      cbn [data_ buffer_ capacity_]. split; [done|].
      rewrite C3. unfold h1. rewrite block_size_insert, length_replicate.
      by rewrite decide_True.
    + done.
    + done.
    + intros i Hi. unfold at_. cbn [data_ buffer_ ptr_add]. rewrite Hb.
      cbn [ptr_add]. rewrite C1 by lia. unfold h1. by apply read_insert_ne.
    + intros c blk0 Hc.
      rewrite lookup_uninitialized_copy_loop_ne.
      * unfold h1. rewrite lookup_insert_ne; [done|]. by eapply live_ne_fresh.
      * rewrite blk_Some. intros [= Heq]. by eapply live_ne_fresh.
    + intros a' [= <-]. apply fresh_unused.
  - assert (size_ other = 0) as Hs by lia. rewrite Hs. cbn.
    refine (conj _ (conj _ (conj _ (conj _ (conj _ _))))).
    + split; [unfold invariant, SIZE_BITS; cbn; lia | done].
    + done.
    + done.
    + intros; lia.
    + done.
    + done.
Qed.




(** The move constructor hands the source's buffer, capacity and size to
    the new array unchanged and leaves the source as a default-constructed
    array; it touches no storage. *)
Theorem move_constructor_takes_over other :
  rep_ok other → Vector_move other = (other, Vector_default).
Proof.
  intros [[[Hs0 Hsz] Hcap] Hnull]. unfold Vector_move, RawMemory_move_assign.
  destruct other as [[buf cap] size]. cbn in *.
  case_decide as Hb; [done|].
  specialize (Hnull (eq_sym Hb)). subst.
  assert (size = 0) as -> by lia. done.
Qed.



End Construction.

(** * Reserve, Resize, PopBack *)

Section Capacity.
Context {T : Type} `{Element T}.

Lemma elements_length (h : heap T) v :
  length (elements h v) = Z.to_nat (size_ v).
Proof. unfold elements. by rewrite length_fmap, length_seq. Qed.

Lemma elements_lookup (h : heap T) v (k : nat) :
  (k < Z.to_nat (size_ v))%nat →
  elements h v !! k = Some (at_ h v (Z.of_nat k)).
Proof.
  intros Hk. unfold elements. rewrite list_lookup_fmap.
  by rewrite lookup_seq_lt.
Qed.




(** [PopBack()] on a non-empty array drops the last element and destroys
    it; buffer and capacity stay. *)
Theorem PopBack_drops_last (h : heap T) v :
  wf h v → 0 < Size v →
  let r := PopBack h v in
  wf r.1 r.2 ∧
  Size r.2 = Size v - 1 ∧
  Capacity r.2 = Capacity v ∧ begin r.2 = begin v ∧
  elements r.1 r.2 = take (Z.to_nat (Size v - 1)) (elements h v) ∧
  read r.1 (ptr_add (begin v) (Size v - 1)) = None.
Proof.
  intros Hwf Hpos. destruct (PopBack_spec h v Hwf Hpos) as (W & S & D & P & L).
  unfold Size, Capacity, begin, GetAddress in *.
  refine (conj W (conj S (conj _ (conj _ (conj _ _))))).
  - by rewrite D.
  - by rewrite D.
  - apply list_eq. intros k. rewrite lookup_take.
    destruct (decide (k < Z.to_nat (size_ v - 1))%nat) as [Hk|Hk].
    + rewrite !elements_lookup by lia. f_equal. apply P. lia.
    + apply lookup_ge_None_2. rewrite elements_length. lia.
  - unfold at_ in L. by rewrite D in L.
Qed.

(** Appending a value and popping it again restores the size and the
    elements, whether or not the append had to grow the array. *)
Theorem PushBack_PopBack_round_trip (h : heap T) v x :
  wf h v → Size v < 2 ^ (SIZE_BITS - 1) →
  let r1 := (PushBack h v (Some x)).1 in
  let r2 := PopBack r1.1 r1.2 in
  wf r2.1 r2.2 ∧ Size r2.2 = Size v ∧ elements r2.1 r2.2 = elements h v.
Proof.
  intros Hwf Hlim. cbn zeta.
  destruct (run_append_spec h v (via_PushBack x) Hwf Hlim) as (W1 & S1 & P1 & _).
  cbn [run_append fst snd] in *.
  destruct (PushBack h v (Some x)).1 as [h1 v1]. cbn [fst snd] in *.
  pose proof Hwf as [[[Hs0 _] _] _].
  destruct (PopBack_spec h1 v1 W1) as (W2 & S2 & _ & P2 & _); [lia|].
  destruct (PopBack h1 v1) as [h2 v2]. cbn [fst snd] in *. unfold Size.
  split; [done|]. split; [lia|].
  apply elements_ext; [lia|]. intros i Hi. rewrite P2 by lia. apply P1. lia.
Qed.

End Capacity.

(** * Insert, Emplace and Erase as list operations *)

Section Positions.
Context {T : Type} `{Element T}.

Lemma wf_ptr_diff (h : heap T) v d :
  wf h v → 0 ≤ d ≤ size_ v →
  wrap (ptr_diff (ptr_add (begin v) d) (begin v)) = d.
Proof.
  intros [[Hsz Hcap] Hbuf] Hd. unfold begin, GetAddress.
  destruct (buffer_ (data_ v)) as [[b o]|]; cbn [ptr_add ptr_diff].
  - replace (o + d - o) with d by lia. apply wrap_small. unfold SIZE_BITS in *. lia.
  - assert (d = 0) as -> by lia. done.
Qed.

Lemma Emplace_returns (h : heap T) v pos x :
  let r := Emplace h v pos (Some x) in
  r.2 = Returned (ptr_add (begin r.1.2) (wrap (ptr_diff pos (begin v)))).
Proof.
  unfold Emplace, RawMemory_new.
  case_decide; [destruct (Allocate h _) as [h1 p] | case_decide]; done.
Qed.

Lemma EmplaceBack_returns (h : heap T) v x :
  let r := EmplaceBack h v (Some x) in
  r.2 = Returned (ptr_add (begin r.1.2) (wrap (size_ r.1.2 - 1))).
Proof.
  unfold EmplaceBack, RawMemory_new.
  case_decide; [destruct (Allocate h _) as [h1 p] |]; done.
Qed.

(** [Insert] at offset [d] puts the value between the first [d] elements
    and the rest, and returns an iterator to it.  (The one case left out,
    [d = Size()] in a non-empty array with spare capacity, is where the
    in-place path loses the last element.) *)
Theorem Insert_places_value (h : heap T) v d x :
  wf h v → Size v < 2 ^ (SIZE_BITS - 1) → 0 ≤ d ≤ Size v →
  d < Size v ∨ Size v = Capacity v ∨ Size v = 0 →
  let r := Insert h v (ptr_add (begin v) d) (Some x) in
  wf r.1.1 r.1.2 ∧
  Size r.1.2 = Size v + 1 ∧
  elements r.1.1 r.1.2 =
    take (Z.to_nat d) (elements h v) ++ Some x :: drop (Z.to_nat d) (elements h v) ∧
  ∃ p, r.2 = Returned p ∧ p = ptr_add (begin r.1.2) d ∧ read r.1.1 p = Some x.
Proof.
  intros Hwf Hlim Hd Hcase. unfold Insert, Size, Capacity in *.
  destruct (Emplace_spec h v d x Hwf Hlim Hd Hcase) as (W & S & P & N & A).
  pose proof (Emplace_returns h v (ptr_add (begin v) d) x) as R. cbn zeta in R.
  rewrite (wf_ptr_diff h v d Hwf Hd) in R.
  destruct (Emplace h v (ptr_add (begin v) d) (Some x)) as [[h1 v1] ret].
  cbn [fst snd] in *.
  refine (conj W (conj S (conj _ _))).
  - apply list_eq. intros k.
    destruct (decide (k < Z.to_nat (size_ v1))%nat) as [Hk|Hk]; cycle 1.
    { rewrite (lookup_ge_None_2 (elements h1 v1)) by (rewrite elements_length; lia).
      symmetry. apply lookup_ge_None_2.
      rewrite length_app, length_take. cbn [length].
      rewrite length_drop, elements_length. lia. }
    rewrite elements_lookup by done.
    destruct (decide (k < Z.to_nat d)%nat) as [Hlt|Hge].
    + rewrite lookup_app_l by (rewrite length_take, elements_length; lia).
      rewrite lookup_take. rewrite decide_True by done.
      rewrite elements_lookup by lia. f_equal. apply P. lia.
    + rewrite lookup_app_r by (rewrite length_take, elements_length; lia).
      rewrite length_take, elements_length.
      replace (Z.to_nat d `min` Z.to_nat (size_ v))%nat with (Z.to_nat d) by lia.
      destruct (decide (k = Z.to_nat d)) as [->|Hne].
      * rewrite Nat.sub_diag. cbn. f_equal. rewrite Z2Nat.id by lia. done.
      * rewrite lookup_cons_ne_0 by lia.
        rewrite lookup_drop. rewrite elements_lookup by lia. f_equal.
        rewrite A by lia. f_equal. lia.
  - exists (ptr_add (begin v1) d). split; [done|]. split; [done|]. exact N.
Qed.



(** When the constructor of the inserted value throws, [Emplace] and
    [Insert] leave the heap and the array exactly as they were, at every
    position and on every path: the value is built before any element is
    moved, and a buffer allocated for it is released again. *)
Theorem Emplace_throw_leaves_array (h : heap T) v pos :
  Emplace h v pos None = (h, v, Threw) ∧ Insert h v pos None = (h, v, Threw).
Proof.
  assert (HE : Emplace h v pos None = (h, v, Threw)).
  { unfold Emplace, RawMemory_new, RawMemory_delete.
    case_decide; [|by case_decide].
    pose proof (Deallocate_Allocate h (grown_capacity (size_ v))) as HD.
    destruct (Allocate h _) as [h1 p]. cbn in *. by rewrite HD. }
  split; [done | exact HE].
Qed.

(** Inserting at [end()] is appending, when the array is full or empty:
    [Insert(end(), x)] and [EmplaceBack(x)] leave the same heap and the
    same array. *)
Theorem Insert_at_end_is_EmplaceBack (h : heap T) v c :
  wf h v → Size v = Capacity v ∨ Size v = 0 →
  (Insert h v (end_ v) c).1 = (EmplaceBack h v c).1.
Proof.
  intros Hwf Hcase. pose proof Hwf as [[Hsz Hcap] Hbuf].
  unfold Size, Capacity in Hcase.
  pose proof (wf_ptr_diff h v (size_ v) Hwf ltac:(lia)) as Hdist.
  assert (Hend : ptr_diff (end_ v) (end_ v) = 0).
  { unfold end_. destruct (ptr_add _ _) as [[a i]|]; cbn; lia. }
  assert (Hpd : Z.to_nat (ptr_diff (end_ v) (begin v)) = Z.to_nat (size_ v)).
  { unfold end_, begin, GetAddress.
    destruct (buffer_ (data_ v)) as [[b o]|]; cbn [ptr_add ptr_diff]; lia. }
  unfold Insert, Emplace, EmplaceBack, Capacity.
  change (ptr_add (begin v) (size_ v)) with (end_ v) in Hdist.
  rewrite Hdist, Hend.
  case_decide as Hfull.
  - unfold RawMemory_new. destruct (Allocate h _) as [h1 p].
    destruct c as [x|]; [|done]. cbn [fst snd].
    unfold uninitialized_move_n, uninitialized_copy_n. rewrite Hpd.
    cbn [Z.to_nat uninitialized_move_loop uninitialized_copy_loop]. done.
  - assert (Hz : size_ v = 0) by lia.
    rewrite decide_False by (intros ?; done).
    destruct c as [x|]; [|done]. cbn [fst snd].
    unfold RawMemory_plus, GetAddress. by rewrite Hz, ptr_add_0.
Qed.

End Positions.

(** * Assignment, growth policy, returned references *)

Section Assignment.
Context {T : Type} `{Element T}.

Lemma storage_effect_copy_assign_from (h : heap T) this rhs :
  let r := copy_assign_from h this rhs in storage_effect h this r.1 r.2.
Proof.
  unfold copy_assign_from. case_decide as Hbig.
  - unfold Vector_copy, RawMemory_new, Allocate, Swap, RawMemory_Swap.
    case_decide as Hn; cbn [fst snd data_ size_]; rewrite Vector_delete_Deallocate;
      cbn [data_ buffer_]; unfold GetAddress, uninitialized_copy_n; cbn [buffer_].
    + apply storage_effect_relocated; [done|]. intros c Hc Hc'.
      rewrite lookup_uninitialized_copy_loop_ne by (rewrite blk_Some; congruence).
      by rewrite lookup_insert_ne by congruence.
    + split.
      * intros c Hc _. rewrite lookup_Deallocate_ne by done.
        by rewrite lookup_uninitialized_copy_loop_ne.
      * right. split; [by intros a [=]|]. intros b Hb. by apply lookup_Deallocate_eq.
  - cbn [fst snd]. apply storage_effect_in_place; [done|]. intros c Hc.
    unfold copy_assign_prefix, uninitialized_copy_n, destroy_n, GetAddress.
    rewrite !copy_assign_loop_eq.
    repeat case_decide;
      rewrite ?lookup_destroy_loop_ne, ?lookup_uninitialized_copy_loop_ne
        by (rewrite ?blk_ptr_add; done); done.
Qed.

(** Copy assignment between two arrays that own separate storage makes
    the destination's elements equal to the source's, whichever path it
    takes: when the source is larger than the destination's capacity the
    destination gets a new buffer of exactly the source's size, otherwise
    it keeps its capacity.  The source is left as it was. *)
Theorem copy_assign_copies (h : heap T) this rhs :
  wf h this → wf h rhs → separate this rhs →
  let r := copy_assign_from h this rhs in
  wf r.1 r.2 ∧
  Size r.2 = Size rhs ∧
  elements r.1 r.2 = elements h rhs ∧
  Capacity r.2 = (if decide (Size rhs > Capacity this) then Size rhs else Capacity this) ∧
  wf r.1 rhs ∧ elements r.1 rhs = elements h rhs.
Proof.
  intros Hwt Hwr Hsep. cbn zeta. unfold Size, Capacity.
  pose proof (storage_effect_copy_assign_from h this rhs) as [Hf Hbuf].
  (* the source's block is untouched *)
  assert (Hrhs : ∀ a, blk (buffer_ (data_ rhs)) = Some a →
            (copy_assign_from h this rhs).1 !! a = h !! a).
  { intros a Ha. pose proof Hwr as [_ Hrb].
    destruct (buffer_ (data_ rhs)) as [[b o]|] eqn:Hb; [|done].
    cbn in Ha. simplify_eq. destruct Hrb as [_ Hbs].
    unfold block_size in Hbs. destruct (h !! a) as [blk0|] eqn:Hl; [|done].
    rewrite <- Hl. apply Hf.
    - unfold separate in Hsep. rewrite Hb in Hsep.
      destruct (buffer_ (data_ this)) as [[a' o']|]; [|done]. cbn. congruence.
    - destruct Hbuf as [-> | [Hfresh _]].
      + unfold separate in Hsep. rewrite Hb in Hsep.
        destruct (buffer_ (data_ this)) as [[a' o']|]; [|done]. cbn. congruence.
      + intros Heq. specialize (Hfresh a Heq). congruence. }
  destruct (same_block_same_array h _ rhs Hwr Hrhs) as [Wr Er].
  destruct (decide (size_ rhs > capacity_ (data_ this))) as [Hbig|Hfit].
  - (* copy, swap, destroy the old contents *)
    destruct (Vector_copy_spec h rhs Hwr) as (W & S & C & E & F & N).
    assert (Hcp : (copy_assign_from h this rhs).2 =
                    (Vector_copy h rhs).2 ∧
                  (copy_assign_from h this rhs).1 =
                    Deallocate (Vector_copy h rhs).1 (buffer_ (data_ this))).
    { unfold copy_assign_from. rewrite decide_True by done.
      destruct (Vector_copy h rhs) as [h1 [d s]]. unfold Swap, RawMemory_Swap.
      cbn [fst snd data_ size_]. by rewrite Vector_delete_Deallocate. }
    destruct Hcp as [Hv Hh]. rewrite Hv in *. rewrite Hh in *.
    destruct (Vector_copy h rhs) as [h1 cp]. cbn [fst snd] in *.
    assert (Hown : ∀ a, blk (buffer_ (data_ cp)) = Some a →
              Deallocate h1 (buffer_ (data_ this)) !! a = h1 !! a).
    { intros a Ha. apply lookup_Deallocate_ne. intros Hthis.
      specialize (N a Ha). pose proof Hwt as [_ Htb].
      destruct (buffer_ (data_ this)) as [[b o]|]; [|done].
      cbn in Hthis. simplify_eq. destruct Htb as [_ Hbs].
      unfold block_size in Hbs. by rewrite N in Hbs. }
    destruct (same_block_same_array h1 _ cp W Hown) as [Wc Ec].
    refine (conj Wc (conj S (conj _ (conj C (conj Wr Er))))).
    rewrite Ec. apply elements_ext; [done|]. intros i Hi. apply E. lia.
  - destruct (copy_assign_from_in_place h this rhs Hwt Hwr Hsep) as (D & S & E & B);
      [lia|].
    pose proof Hwt as [[Hts Htc] Htb]. pose proof Hwr as [[Hrs _] _].
    refine (conj _ (conj S (conj _ (conj _ (conj Wr Er))))).
    + split; [unfold invariant; rewrite D, S; lia|]. rewrite D.
      destruct (buffer_ (data_ this)) as [[a o]|]; [|done].
      destruct Htb as [-> Hbs]. split; [done|]. by rewrite B.
    + apply elements_ext; [done|]. intros i Hi. by apply E.
    + by rewrite D.
Qed.


(** [EmplaceBack] appends the value after the existing elements and
    returns a reference to the new last element. *)
Theorem EmplaceBack_appends (h : heap T) v x :
  wf h v → Size v < 2 ^ (SIZE_BITS - 1) →
  let r := EmplaceBack h v (Some x) in
  wf r.1.1 r.1.2 ∧
  elements r.1.1 r.1.2 = elements h v ++ [Some x] ∧
  ∃ p, r.2 = Returned p ∧ p = ptr_add (begin r.1.2) (Size v) ∧ read r.1.1 p = Some x.
Proof.
  intros Hwf Hlim. unfold Size in *. cbn zeta.
  destruct (EmplaceBack_spec h v x Hwf Hlim) as (h1 & v1 & p & Heq & W & S & P & N).
  pose proof (EmplaceBack_returns h v x) as R. cbn zeta in R.
  rewrite Heq in *. cbn [fst snd] in *.
  pose proof Hwf as [[[Hs0 _] _] _].
  assert (Hw : wrap (size_ v1 - 1) = size_ v).
  { rewrite S. replace (size_ v + 1 - 1) with (size_ v) by lia.
    apply wrap_small. unfold SIZE_BITS in *. lia. }
  rewrite Hw in R. split; [done|]. split.
  - apply list_eq. intros k.
    destruct (decide (k < Z.to_nat (size_ v))%nat) as [Hk|Hk].
    + rewrite lookup_app_l by (rewrite elements_length; lia).
      rewrite !elements_lookup by lia. f_equal. apply P. lia.
    + rewrite lookup_app_r by (rewrite elements_length; lia).
      rewrite elements_length.
      destruct (decide (k = Z.to_nat (size_ v))) as [->|Hne].
      * rewrite Nat.sub_diag, elements_lookup by lia. cbn. f_equal.
        rewrite Z2Nat.id by lia. done.
      * rewrite lookup_ge_None_2 by (rewrite elements_length; lia).
        symmetry. apply lookup_ge_None_2. cbn. lia.
  - exists (ptr_add (begin v1) (size_ v)). split; [done|]. split; [done|]. exact N.
Qed.

Lemma power_of_two_run (cs : list (append_call T)) (h : heap T) v :
  invariant v →
  (size_ v = 0 ∧ capacity_ (data_ v) = 0) ∨
    (∃ k, 0 ≤ k ∧ capacity_ (data_ v) = 2 ^ k ∧
          size_ v ≤ capacity_ (data_ v) < 2 * size_ v) →
  size_ v + Z.of_nat (length cs) ≤ 2 ^ (SIZE_BITS - 1) →
  let v' := (run_appends (h, v) cs).2 in
  (size_ v' = 0 ∧ capacity_ (data_ v') = 0) ∨
    (∃ k, 0 ≤ k ∧ capacity_ (data_ v') = 2 ^ k ∧
          size_ v' ≤ capacity_ (data_ v') < 2 * size_ v').
Proof.
  revert h v. induction cs as [|c cs IH]; intros h v Hinv HP Hlim; [done|].
  cbn [run_appends foldl]. cbn [length] in Hlim.
  destruct (run_append_shape h v c Hinv) as (I1 & S1 & C1); [lia|].
  destruct (run_append (h, v) c) as [h1 v1]. cbn [fst snd] in *.
  apply (IH h1 v1 I1); [|lia].
  right. destruct HP as [[Hs Hc] | (k & Hk & Hc & Hb)].
  - exists 0. rewrite C1, Hs, Hc. rewrite decide_True by done. cbn. lia.
  - case_decide as Hfull.
    + exists (k + 1). rewrite C1, Hc, Z.pow_add_r by lia.
      assert (0 < 2 ^ k) by (apply Z.pow_pos_nonneg; lia).
      change (2 ^ 1) with 2. lia.
    + exists k. rewrite C1. lia.
Qed.

(** After [N >= 1] appends to an empty array the capacity is the least
    power of two that holds them: a power of two, at least [N] and less
    than [2N]. *)
Theorem capacity_is_least_power_of_two (h0 : heap T) (cs : list (append_call T)) :
  cs ≠ [] →
  Z.of_nat (length cs) ≤ 2 ^ (SIZE_BITS - 1) →
  let v := (run_appends (h0, Vector_default) cs).2 in
  ∃ k, 0 ≤ k ∧ Capacity v = 2 ^ k ∧
       Z.of_nat (length cs) ≤ Capacity v < 2 * Z.of_nat (length cs).
Proof.
  intros Hne Hlen. cbn zeta. unfold Capacity.
  assert (Hinv : invariant Vector_default).
  { unfold invariant, SIZE_BITS. cbn. lia. }
  destruct (run_appends_shape cs h0 Vector_default Hinv) as [_ Hsize]; [cbn; lia|].
  destruct (power_of_two_run cs h0 Vector_default Hinv) as [[Hs _] | (k & Hk & Hc & Hb)];
    [by left | cbn; lia | |].
  - destruct cs; [done|]. cbn [length size_ Vector_default] in *. lia.
  - exists k. cbn [size_ Vector_default] in Hsize. lia.
Qed.

End Assignment.

(** * [RawMemory] *)

Section RawMemoryFacts.
Context {T : Type} `{Element T}.


End RawMemoryFacts.

(** * The further theorems at concrete inputs *)

Section FurtherWitnesses.

Local Ltac by_computation :=
  vm_compute; repeat split; try reflexivity; try discriminate;
  try (intros ?; discriminate).

Lemma three_wf : wf Examples.three.1 Examples.three.2.
Proof. by_computation. Qed.







Lemma move_constructor_takes_over_witness :
  Vector_move Examples.three.2 = (Examples.three.2, Vector_default).
Proof.
  apply (move_constructor_takes_over Examples.three.2). by_computation.
Defined.



Lemma PopBack_drops_last_witness :
  let v := Examples.three.2 in
  let r := PopBack Examples.three.1 v in
  wf r.1 r.2 ∧
  Size r.2 = Size v - 1 ∧
  Capacity r.2 = Capacity v ∧ begin r.2 = begin v ∧
  elements r.1 r.2 = take (Z.to_nat (Size v - 1)) (elements Examples.three.1 v) ∧
  read r.1 (ptr_add (begin v) (Size v - 1)) = None.
Proof.
  apply (PopBack_drops_last Examples.three.1 Examples.three.2).
  - exact three_wf.
  - by_computation.
Defined.

Lemma PushBack_PopBack_round_trip_witness :
  let v := Examples.full.2 in
  let r1 := (PushBack Examples.full.1 v (Some 7)).1 in
  let r2 := PopBack r1.1 r1.2 in
  wf r2.1 r2.2 ∧ Size r2.2 = Size v ∧
  elements r2.1 r2.2 = elements Examples.full.1 v.
Proof.
  apply (PushBack_PopBack_round_trip Examples.full.1 Examples.full.2 7).
  - by_computation.
  - by_computation.
Defined.

Lemma Insert_places_value_witness :
  let v := Examples.three.2 in
  let r := Insert Examples.three.1 v (ptr_add (begin v) 1) (Some 9) in
  wf r.1.1 r.1.2 ∧
  Size r.1.2 = Size v + 1 ∧
  elements r.1.1 r.1.2 =
    take (Z.to_nat 1) (elements Examples.three.1 v) ++
    Some 9 :: drop (Z.to_nat 1) (elements Examples.three.1 v) ∧
  ∃ p, r.2 = Returned p ∧ p = ptr_add (begin r.1.2) 1 ∧ read r.1.1 p = Some 9.
Proof.
  apply (Insert_places_value Examples.three.1 Examples.three.2 1 9).
  - exact three_wf.
  - by_computation.
  - by_computation.
  - left. by_computation.
Defined.



Lemma Insert_at_end_is_EmplaceBack_witness :
  (Insert Examples.full.1 Examples.full.2 (end_ Examples.full.2) (Some 3)).1 =
  (EmplaceBack Examples.full.1 Examples.full.2 (Some 3)).1.
Proof.
  apply (Insert_at_end_is_EmplaceBack Examples.full.1 Examples.full.2 (Some 3)).
  - by_computation.
  - left. by_computation.
Defined.

Lemma copy_assign_copies_witness :
  let h := Examples.with_zeros.1 in
  let this := Examples.three.2 in
  let rhs := Examples.with_zeros.2 in
  let r := copy_assign_from h this rhs in
  wf r.1 r.2 ∧
  Size r.2 = Size rhs ∧
  elements r.1 r.2 = elements h rhs ∧
  Capacity r.2 = (if decide (Size rhs > Capacity this) then Size rhs else Capacity this) ∧
  wf r.1 rhs ∧ elements r.1 rhs = elements h rhs.
Proof.
  apply (copy_assign_copies Examples.with_zeros.1 Examples.three.2 Examples.with_zeros.2).
  - by_computation.
  - by_computation.
  - by_computation.
Defined.

Lemma EmplaceBack_appends_witness :
  let v := Examples.three.2 in
  let r := EmplaceBack Examples.three.1 v (Some 4) in
  wf r.1.1 r.1.2 ∧
  elements r.1.1 r.1.2 = elements Examples.three.1 v ++ [Some 4] ∧
  ∃ p, r.2 = Returned p ∧ p = ptr_add (begin r.1.2) (Size v) ∧ read r.1.1 p = Some 4.
Proof.
  apply (EmplaceBack_appends Examples.three.1 Examples.three.2 4).
  - exact three_wf.
  - by_computation.
Defined.

Lemma capacity_is_least_power_of_two_witness :
  let cs := [via_PushBack 1; via_EmplaceBack 2; via_PushBack_value 3] in
  let v := (run_appends ((∅ : heap Z), Vector_default) cs).2 in
  ∃ k, 0 ≤ k ∧ Capacity v = 2 ^ k ∧
       Z.of_nat (length cs) ≤ Capacity v < 2 * Z.of_nat (length cs).
Proof.
  apply (capacity_is_least_power_of_two (∅ : heap Z)
           [via_PushBack 1; via_EmplaceBack 2; via_PushBack_value 3]).
  - discriminate.
  - by_computation.
Defined.



End FurtherWitnesses.
